(** * Getis-Ord G statistics (pysal/explore/esda/getisord.py)

    A shallow embedding of the global engine [G] and of the local engine
    [G_Local], and the properties of their specification.

    Numbers.  The attribute vector holds finite reals; they are modelled as
    exact rationals ([Qc], rationals in lowest terms, with Leibniz equality).
    numpy's arithmetic never raises on a division by zero: it produces a
    non-finite value (inf or nan).  A computed value is therefore a [float]:
    [Some q] for a finite value, [None] for a non-finite one, which every
    later operation propagates.  Rounding is not modelled: the statements are
    those of exact arithmetic. *)

From Stdlib Require Import List ZArith QArith Qcanon Lia Bool Arith.
From Stdlib Require Import Permutation Field.
Import ListNotations.

Set Implicit Arguments.

(** ** Exact rationals *)

Module Num.

Local Open Scope Qc_scope.

Definition Z2Qc (z : Z) : Qc := Q2Qc (inject_Z z).
Definition N2Qc (n : nat) : Qc := Z2Qc (Z.of_nat n).

(** Boolean comparisons, computed on the underlying fractions. *)
Definition Qcleb (a b : Qc) : bool := Qle_bool a b.
Definition Qceqb (a b : Qc) : bool := Qeq_bool a b.

Definition Qcabs (a : Qc) : Qc := if Qcleb 0 a then a else - a.

End Num.

(** ** Computed values, vectors and broadcasting *)

Module Float.
Import Num.
Local Open Scope Qc_scope.

(** A computed value: [None] is a non-finite result (numpy's inf or nan). *)
Definition float := option Qc.

Definition fin (q : Qc) : float := Some q.
Definition finZ (z : Z) : float := Some (Z2Qc z).

Definition lift2 (f : Qc -> Qc -> Qc) (a b : float) : float :=
  match a, b with
  | Some x, Some y => Some (f x y)
  | _, _ => None
  end.

Definition fadd : float -> float -> float := lift2 Qcplus.
Definition fsub : float -> float -> float := lift2 Qcminus.
Definition fmul : float -> float -> float := lift2 Qcmult.

(** numpy division: a zero divisor gives a non-finite value, no exception. *)
Definition fdiv (a b : float) : float :=
  match a, b with
  | Some x, Some y => if Qceqb y 0 then None else Some (x / y)
  | _, _ => None
  end.

(** [a >= b]; a comparison with a non-finite value is false, as with nan. *)
Definition fge (a b : float) : bool :=
  match a, b with
  | Some x, Some y => Qcleb y x
  | _, _ => false
  end.

Definition b2q (b : bool) : Qc := if b then 1 else 0.
Definition b2z (b : bool) : Z := if b then 1%Z else 0%Z.

(** Vectors of finite values. *)
Definition vsum (l : list Qc) : Qc := fold_right Qcplus 0 l.
Definition vmul (a b : list Qc) : list Qc :=
  map (fun p => fst p * snd p) (combine a b).
Definition vadd (a b : list Qc) : list Qc :=
  map (fun p => fst p + snd p) (combine a b).
Definition vscale (a : Qc) (l : list Qc) : list Qc := map (Qcmult a) l.

(** Vectors of computed values. *)
Definition fins (l : list Qc) : list float := map fin l.
Definition fsum (l : list float) : float := fold_right fadd (fin 0) l.
Definition fmap2 (f : float -> float -> float) (a b : list float) : list float :=
  map (fun p => f (fst p) (snd p)) (combine a b).

(** [x.mean()], [x.var()] (population variance) and [x.std()] of numpy. *)
Definition fmean (l : list float) : float := fdiv (fsum l) (finZ (Z.of_nat (length l))).
Definition fvar (l : list float) : float :=
  let m := fmean l in
  fmean (map (fun x => fmul (fsub x m) (fsub x m)) l).

(** A numpy operand: a scalar or a one-dimensional array, with broadcasting. *)
Inductive nd :=
| Scalar (x : float)
| Vec (v : list float).

Definition nd_map2 (f : float -> float -> float) (a b : nd) : nd :=
  match a, b with
  | Scalar x, Scalar y => Scalar (f x y)
  | Scalar x, Vec v => Vec (map (f x) v)
  | Vec u, Scalar y => Vec (map (fun x => f x y) u)
  | Vec u, Vec v => Vec (fmap2 f u v)
  end.

Definition nd_map (f : float -> float) (a : nd) : nd :=
  match a with
  | Scalar x => Scalar (f x)
  | Vec v => Vec (map f v)
  end.

(** Matrices as lists of rows: a column, the transpose, and the sum over the
    first axis of a boolean matrix (Python's [sum] of its rows). *)
Definition col {A} (d : A) (m : list (list A)) (j : nat) : list A :=
  map (fun row => nth j row d) m.
Definition transpose {A} (d : A) (ncols : nat) (m : list (list A)) : list (list A) :=
  map (col d m) (seq 0 ncols).
Definition count_true (l : list bool) : Z := Z.of_nat (length (filter (fun b => b) l)).
Definition sum_axis0 (ncols : nat) (m : list (list bool)) : list Z :=
  map (fun j => count_true (col false m j)) (seq 0 ncols).

End Float.

(** ** Exceptions and the weights graph *)

Inductive exn := ValueError | IndexError | ZeroDivisionError.

Inductive res (A : Type) :=
| Ok (a : A)
| Raise (e : exn).
Arguments Raise {A} e.

Definition res_bind {A B} (c : res A) (k : A -> res B) : res B :=
  match c with
  | Ok a => k a
  | Raise e => Raise e
  end.

Fixpoint mapM {A B} (f : A -> res B) (l : list A) : res (list B) :=
  match l with
  | [] => Ok []
  | a :: l' => res_bind (f a) (fun b => res_bind (mapM f l') (fun bs => Ok (b :: bs)))
  end.

(** [l[i]] with Python's bounds check (the indices of the model are naturals). *)
Definition index {A} (l : list A) (i : nat) : res A :=
  match nth_error l i with
  | Some a => Ok a
  | None => Raise IndexError
  end.

Module Weights.
Import Num Float.
Local Open Scope Qc_scope.

(** The transform modes the engines use: ['B'] (binary) and ['R']
    (row-standardized); the source writes them as strings, compared after
    [lower()]. *)
Inductive mode := B | R.

(** Modelled from the spec: the weights graph [W] (pysal.lib.weights, not under
    src/): a fixed set of n locations, for each its neighbours, and a mutable
    transform mode.  Locations are identified with their position in
    [id_order]. *)
Record W := mkW {
  neighbors : list (list nat);
  transform : mode
}.

Definition n (w : W) : nat := length (neighbors w).
Definition id_order (w : W) : list nat := seq 0 (n w).

(** Modelled from the spec: per-location neighbour counts and their maximum. *)
Definition cardinalities (w : W) : list nat := map (@length nat) (neighbors w).
Definition max_neighbors (w : W) : nat := fold_right Nat.max 0%nat (cardinalities w).

(** Modelled from the spec: the transform setter stores the mode; the neighbour
    sets do not change. *)
Definition set_transform (m : mode) (w : W) : W :=
  {| neighbors := neighbors w; transform := m |}.

(** Modelled from the spec: the weight of the pair (i, j) under the current
    transform: 0 or 1 when binary, each row rescaled to sum to 1 when
    row-standardized. *)
Definition weight (w : W) (i j : nat) : Qc :=
  let nb := nth i (neighbors w) [] in
  if existsb (Nat.eqb j) nb then
    match transform w with
    | B => 1
    | R => 1 / N2Qc (length nb)
    end
  else 0.

(** Modelled from the spec: the aggregate sum s0 of the weight matrix under
    the current transform. *)
Definition s0 (w : W) : Qc :=
  vsum (map (fun i => vsum (map (weight w i) (seq 0 (n w)))) (seq 0 (n w))).

(** Modelled from the spec: the spatial lag operator [lag_spatial]
    (pysal.lib.weights.spatial_lag, not under src/):
    result[i] = sum over j of weight(i, j, current transform) * vector[j].
    It is the product of the n-by-n weight matrix with the vector.  The spec
    describes it for a vector with one entry per location only; what the
    operator does with a vector of another length is not specified, the
    [Raise] below stands for it, and no property of this file depends on
    that branch. *)
Definition lag_at (w : W) (y : list Qc) (i : nat) : Qc :=
  vsum (map (fun j => weight w i j * nth j y 0) (seq 0 (n w))).

Definition slag (w : W) (y : list Qc) : res (list Qc) :=
  if (length y =? n w)%nat then Ok (map (lag_at w y) (seq 0 (n w)))
  else Raise ValueError.

End Weights.

(** ** The engines' monad: the shared graph as state, exceptions as results *)

Module St.
Import Weights.

Definition M (A : Type) : Type := W -> W * res A.

Definition ret {A} (a : A) : M A := fun w => (w, Ok a).
Definition bind {A B} (c : M A) (k : A -> M B) : M B :=
  fun w =>
    match c w with
    | (w', Ok a) => k a w'
    | (w', Raise e) => (w', Raise e)
    end.
Definition get : M W := fun w => (w, Ok w).
Definition put_transform (m : mode) : M unit := fun w => (set_transform m w, Ok tt).
Definition lift {A} (r : res A) : M A := fun w => (w, r).

End St.

Declare Scope eng_scope.
Delimit Scope eng_scope with eng.
Notation "x <- c1 ;; c2" := (St.bind c1 (fun x => c2))
  (at level 61, c1 at next level, right associativity) : eng_scope.
Notation "c1 ;; c2" := (St.bind c1 (fun _ => c2))
  (at level 61, right associativity) : eng_scope.
Notation "' pat <- c1 ;; c2" := (St.bind c1 (fun x => match x with pat => c2 end))
  (at level 61, pat pattern, c1 at next level, right associativity) : eng_scope.

(** ** The global engine: class [G] *)

Module G.
Import Num Float Weights St.
Local Open Scope Qc_scope.

Record moments_t := mkMoments {
  EG : float; EG2 : float; VG : float;
  b0 : Qc; b1 : Qc; b2 : Qc; b3 : Qc; b4 : Qc
}.

Record sim_t := mkSim {
  sim : list float;
  larger : Z;
  p_sim : float;
  EG_sim : float;
  seG_sim : float;
  VG_sim : float;
  z_sim : float;
  p_z_sim : float
}.

(** The attributes of a constructed [G] ([self.num], a scratch value
    overwritten by every call of [__calc], is left out). *)
Record obj := mkObj {
  n : nat;
  y : list Qc;
  permutations : nat;
  mom : moments_t;
  y2 : list Qc;
  den_sum : Qc;
  G : float;
  z_norm : float;
  p_norm : float;
  simulation : option sim_t
}.

Definition sq (x : Qc) : Qc := x * x.

Section Engine.

(** What the engine consumes as capabilities: [np.sqrt] (non-finite on a
    negative argument), the standard normal cdf, the aggregate sums s1 and s2
    of the graph, and the random generator: [permutation k l] is the result of
    the k-th call of [np.random.permutation], on [l]. *)
Variable sqrt : Qc -> float.
Variable norm_cdf : Qc -> Qc.
Variables w_s1 w_s2 : W -> Qc.
Variable permutation : nat -> list Qc -> list Qc.

Definition fsqrt (a : float) : float :=
  match a with
  | Some x => sqrt x
  | None => None
  end.

(** [1 - stats.norm.cdf(np.abs(z))] *)
Definition norm_tail (z : float) : float :=
  option_map (fun q => 1 - norm_cdf (Qcabs q)) z.

(** [G.__moments] *)
Definition moments (y : list Qc) (n : Z) (w : W) : moments_t :=
  let n2 := (n * n)%Z in
  let s0 := Weights.s0 w in
  let EG := fdiv (fin s0) (finZ (n * (n - 1))) in
  let s02 := s0 * s0 in
  let s1 := w_s1 w in
  let s2 := w_s2 w in
  let b0 := Z2Qc (n2 - 3 * n + 3) * s1 - Z2Qc n * s2 + Z2Qc 3 * s02 in
  let b1 := Z2Qc (-1) * (Z2Qc (n2 - n) * s1 - Z2Qc (2 * n) * s2 + Z2Qc 6 * s02) in
  let b2 := Z2Qc (-1) * (Z2Qc (2 * n) * s1 - Z2Qc (n + 3) * s2 + Z2Qc 6 * s02) in
  let b3 := Z2Qc (4 * (n - 1)) * s1 - Z2Qc (2 * (n + 1)) * s2 + Z2Qc 8 * s02 in
  let b4 := s1 - s2 + s02 in
  let y2 := vmul y y in
  let y3 := vmul y y2 in
  let y4 := vmul y2 y2 in
  let EG2 := b0 * sq (vsum y2) + b1 * vsum y4 + b2 * sq (vsum y) * vsum y2 in
  let EG2 := EG2 + (b3 * vsum y * vsum y3 + b4 * sq (sq (vsum y))) in
  let EG2NUM := EG2 in
  let EG2DEN := sq (sq (vsum y) - vsum y2) * Z2Qc n * Z2Qc (n - 1)
                * Z2Qc (n - 2) * Z2Qc (n - 3) in
  let EG2 := fdiv (fin EG2NUM) (fin EG2DEN) in
  let VG := fsub EG2 (fmul EG EG) in
  mkMoments EG EG2 VG b0 b1 b2 b3 b4.

(** [G.__calc] *)
Definition calc (w : W) (den_sum : Qc) (y : list Qc) : res float :=
  res_bind (slag w y) (fun yl =>
  let num := vmul y yl in
  Ok (fdiv (fin (vsum num)) (fin den_sum))).

(** [(y * y.T).sum()] for the n-by-1 column [y]: the sum of the outer product. *)
Definition outer (y : list Qc) : list (list Qc) :=
  map (fun a => map (fun b => a * b) y) y.
Definition msum (m : list (list Qc)) : Qc := vsum (map vsum m).

(** The permutation inference of [G.__init__] (the body of [if permutations:]). *)
Definition simulate (w : W) (y : list Qc) (den_sum : Qc) (G : float)
    (permutations : nat) : res sim_t :=
  res_bind (mapM (fun i => calc w den_sum (permutation i y)) (seq 0 permutations))
  (fun sim =>
  let above := map (fun s => fge s G) sim in
  let larger := count_true above in
  let larger :=
    if (Z.of_nat permutations - larger <? larger)%Z
    then (Z.of_nat permutations - larger)%Z else larger in
  let p_sim := fdiv (fin (Z2Qc larger + 1)) (fin (N2Qc permutations + 1)) in
  let EG_sim := fdiv (fsum sim) (fin (N2Qc permutations)) in
  let seG_sim := fsqrt (fvar sim) in
  let VG_sim := fmul seG_sim seG_sim in
  let z_sim := fdiv (fsub G EG_sim) seG_sim in
  let p_z_sim := norm_tail z_sim in
  Ok (mkSim sim larger p_sim EG_sim seG_sim VG_sim z_sim p_z_sim)).

(** [G.__init__] *)
Definition init (y : list Qc) (permutations : nat) : M obj :=
  (let n := length y in
   put_transform B ;;
   w <- get ;;
   let mom := moments y (Z.of_nat n) w in
   let y2 := vmul y y in
   let den_sum := msum (outer y) - vsum (vmul y y) in
   G <- lift (calc w den_sum y) ;;
   let z_norm := fdiv (fsub G (EG mom)) (fsqrt (VG mom)) in
   let p_norm := norm_tail z_norm in
   simf <- match permutations with
           | O => ret None
           | S _ => s <- lift (simulate w y den_sum G permutations) ;; ret (Some s)
           end ;;
   ret (mkObj n y permutations mom y2 den_sum G z_norm p_norm simf))%eng.

End Engine.

(** The denominator and the observed value that [__init__] and [__calc]
    compute for a vector of the graph's length. *)
Definition den_of (y : list Qc) : Qc := msum (outer y) - vsum (vmul y y).
Definition G_of (w : W) (den : Qc) (y : list Qc) : float :=
  fdiv (fin (vsum (vmul y (map (lag_at w y) (seq 0 (Weights.n w)))))) (fin den).

(** [G._statistic] *)
Definition statistic (o : obj) : float := G o.

End G.

(** ** The local engine: class [G_Local] *)

Module G_Local.
Import Num Float Weights St.
Local Open Scope Qc_scope.

Record calc_t := mkCalc {
  y_sum : Qc;
  Gs : list float;
  EGs : nd;
  VGs : nd;
  Zs : list float
}.

Record sim_t := mkSim {
  rGs : list (list float);
  sim : list (list float);
  larger : list Z;
  p_sim : list float;
  EG_sim : float;
  seG_sim : float;
  VG_sim : float;
  z_sim : list float;
  p_z_sim : list float
}.

Record obj := mkObj {
  n : nat;
  y : list Qc;
  w_original : mode;
  w_transform : mode;
  permutations : nat;
  star : bool;
  stat : calc_t;
  p_norm : list float;
  simulation : option sim_t
}.

(** Python's scalar division [a / b] by an [int]: it raises on zero. *)
Definition pydiv (a : Qc) (b : Z) : res Qc :=
  if (b =? 0)%Z then Raise ZeroDivisionError else Ok (a / Z2Qc b).

(** An array combined with a scalar or an array (broadcasting). *)
Definition bcast2 (f : float -> float -> float) (u : list float) (b : nd) : list float :=
  match b with
  | Scalar x => map (fun a => f a x) u
  | Vec v => fmap2 f u v
  end.

(** [G_Local.__getCardinalities] *)
Definition getCardinalities (self_n : nat) (w : W) : res (list nat) :=
  let ido := id_order w in
  mapM (fun i => res_bind (index ido i) (index (cardinalities w))) (seq 0 self_n).

Section Engine.

(** The capabilities consumed: [np.sqrt], the standard normal cdf, and the
    random generator: [permutation i l] is the result of
    [np.random.permutation(l)] in round [i], [shuffle i l] the content of [l]
    after [np.random.shuffle(l)] for location [i]. *)
Variable sqrt : Qc -> float.
Variable norm_cdf : Qc -> Qc.
Variable permutation : nat -> list nat -> list nat.
Variable shuffle : nat -> list nat -> list nat.

Definition fsqrt (a : float) : float :=
  match a with
  | Some x => sqrt x
  | None => None
  end.

Definition norm_tail (z : float) : float :=
  option_map (fun q => 1 - norm_cdf (Qcabs q)) z.

(** The observed statistic of [G_Local.calc]: [(Gs, N, yl_mean, s2)], without
    [star] and with it. *)
Definition calc_plain (self_n : nat) (y : list Qc) : M (list float * Z * nd * nd) :=
  (let y2 := vmul y y in
   let y_sum := vsum y in
   let y2_sum := vsum y2 in
   w <- get ;;
   yl <- lift (slag w y) ;;
   let ydi := map (fun yi => y_sum - yi) y in
   let Gs := fmap2 fdiv (fins yl) (fins ydi) in
   let N := (Z.of_nat self_n - 1)%Z in
   let yl_mean := map (fun d => fdiv (fin d) (finZ N)) ydi in
   let s2 := fmap2 fsub (map (fun q => fdiv (fin (y2_sum - q)) (finZ N)) y2)
                        (map (fun m => fmul m m) yl_mean) in
   ret (Gs, N, Vec yl_mean, Vec s2))%eng.

Definition calc_star (self_n : nat) (y : list Qc) (w_transform : mode)
  : M (list float * Z * nd * nd) :=
  (let y_sum := vsum y in
   put_transform B ;;
   w <- get ;;
   yl <- lift (slag w y) ;;
   let yl := vadd yl y in
   yl <- match w_transform with
         | R => wc <- lift (getCardinalities self_n w) ;;
                ret (fmap2 fdiv (fins yl) (map (fun c => fin (N2Qc c + 1)) wc))
         | B => ret (fins yl)
         end ;;
   let Gs := map (fun v => fdiv v (fin y_sum)) yl in
   let N := Z.of_nat self_n in
   ret (Gs, N, Scalar (fmean (fins y)), Scalar (fvar (fins y))))%eng.

(** [G_Local.calc] *)
Definition calc (self_n : nat) (y : list Qc) (w_transform : mode) (star : bool)
    (w_original : mode) : M calc_t :=
  (let y_sum := vsum y in
   '(Gs, N, yl_mean, s2) <-
      (if negb star then calc_plain self_n y else calc_star self_n y w_transform) ;;
   '(EGs_num, VGs_num) <-
      match w_transform with
      | B => w <- get ;;
             W <- lift (getCardinalities self_n w) ;;
             let W := map (fun c => N2Qc c + b2q star) W in
             ret (Vec (fins W),
                  Vec (map (fun c => fdiv (fin (c * (Z2Qc N - c))) (fin (Z2Qc N - 1))) W))
      | R => ret (Scalar (fin 1), Scalar (fin 1))
      end ;;
   EGs <- match EGs_num with
          | Scalar _ => q <- lift (pydiv 1 N) ;; ret (Scalar (fin q))
          | Vec v => ret (Vec (map (fun e => fdiv e (finZ N)) v))
          end ;;
   invN2 <- lift (pydiv 1 (N * N)) ;;
   let VGs := nd_map2 fmul (nd_map2 fmul VGs_num (Scalar (fin invN2)))
                           (nd_map2 fdiv s2 (nd_map2 fmul yl_mean yl_mean)) in
   let Zs := bcast2 fdiv (bcast2 fsub Gs EGs) (nd_map fsqrt VGs) in
   put_transform w_original ;;
   ret (mkCalc y_sum Gs EGs VGs Zs))%eng.

(** The matrix of candidate positions drawn by [G_Local.__crand] (for
    n >= 2; with n = 1 numpy permutes an empty list into an empty array of
    floats, which is no index: the properties below assume n >= 2). *)
Definition crand_rids (self_n : nat) (w : W) (permutations : nat) : list (list nat) :=
  let n_1 := (self_n - 1)%nat in
  let rid := seq 0 n_1 in
  let prange := seq 0 permutations in
  let k := (max_neighbors w + 1)%nat in
  map (fun i => firstn k (permutation i rid)) prange.

(** The shuffled pool of location [i]: [ids[ids != i]] after the shuffle. *)
Definition crand_idsi (w : W) (i : nat) : list nat :=
  let ids := seq 0 (Weights.n w) in
  shuffle i (filter (fun j => negb (j =? i)%nat) ids).

(** [(y[idsi[rids[:, 0:wci]]]).sum(1)]: every index is bounds-checked. *)
Definition crand_sums (y : list Qc) (idsi : list nat) (rids : list (list nat))
    (wci : nat) : res (list Qc) :=
  mapM (fun row =>
          res_bind (mapM (fun p => res_bind (index idsi p) (index y)) (firstn wci row))
                   (fun ys => Ok (vsum ys)))
       rids.

(** [G_Local.__crand] *)
Definition crand (self_n : nat) (y : list Qc) (w : W) (w_transform : mode)
    (star : bool) (permutations : nat) (y_sum : Qc) : res (list (list float)) :=
  let rids := crand_rids self_n w permutations in
  res_bind (getCardinalities self_n w) (fun wc =>
  let den := match w_transform with
             | R => map (fun c => N2Qc c + b2q star) wc
             | B => repeat 1 (Weights.n w)
             end in
  res_bind
    (mapM (fun i =>
       let idsi := crand_idsi w i in
       res_bind (index y i) (fun yi =>
       let yi_star := yi * b2q star in
       res_bind (index wc i) (fun wci =>
       res_bind (crand_sums y idsi rids wci) (fun sums =>
       res_bind (index den i) (fun deni =>
       Ok (map (fun s => fdiv (fdiv (fin (s + yi_star)) (fin deni))
                              (fin (y_sum - (1 - b2q star) * yi))) sums))))))
      (seq 0 (Weights.n w)))
    (fun rows =>
       Ok (rows ++ repeat (repeat (fin 0) permutations) (self_n - Weights.n w)))).

(** [sim >= self.Gs]: every row of [sim] compared with [Gs], entry by entry. *)
Definition above (sim : list (list float)) (Gs : list float) : list (list bool) :=
  map (fun row => map (fun p => fge (fst p) (snd p)) (combine row Gs)) sim.

(** The permutation inference of [G_Local.__init__]. *)
Definition simulate (self_n : nat) (y : list Qc) (w : W) (w_transform : mode)
    (star : bool) (permutations : nat) (c : calc_t) : res sim_t :=
  res_bind (crand self_n y w w_transform star permutations (y_sum c)) (fun rGs =>
  let sim := transpose None permutations rGs in
  let above := above sim (Gs c) in
  let larger := sum_axis0 self_n above in
  let larger := map (fun l => if (Z.of_nat permutations - l <? l)%Z
                              then (Z.of_nat permutations - l)%Z else l) larger in
  let p_sim := map (fun l => fdiv (fin (Z2Qc l + 1)) (fin (N2Qc permutations + 1))) larger in
  let EG_sim := fmean (concat sim) in
  let seG_sim := fsqrt (fvar (concat sim)) in
  let VG_sim := fmul seG_sim seG_sim in
  let z_sim := map (fun g => fdiv (fsub g EG_sim) seG_sim) (Gs c) in
  let p_z_sim := map norm_tail z_sim in
  Ok (mkSim rGs sim larger p_sim EG_sim seG_sim VG_sim z_sim p_z_sim)).

(** [G_Local.__init__] *)
Definition init (y : list Qc) (transform : mode) (permutations : nat) (star : bool)
  : M obj :=
  (let n := length y in
   w0 <- get ;;
   let w_original := Weights.transform w0 in
   let w_transform := transform in
   put_transform w_transform ;;
   c <- calc n y w_transform star w_original ;;
   let p_norm := map norm_tail (Zs c) in
   simf <- match permutations with
           | O => ret None
           | S _ => w <- get ;;
                    s <- lift (simulate n y w w_transform star permutations c) ;;
                    ret (Some s)
           end ;;
   ret (mkObj n y w_original w_transform permutations star c p_norm simf))%eng.

End Engine.

(** [G_Local._statistic] *)
Definition statistic (o : obj) : list float := Gs (stat o).

End G_Local.

(** ** The specification's formulas, written from its words *)

Module Spec.
Import Num Float Weights.
Local Open Scope Qc_scope.

(** Section 7, InvalidInput: the vector length differs from the location
    count, or n < 4. *)
Definition invalid_input (y : list Qc) (w : W) : Prop :=
  length y <> n w \/ (length y < 4)%nat.

Definition fails {A} (r : res A) : Prop := exists e, r = Raise e.

(** Section 4.1, observed value: the double sum of w_ij y_i y_j over
    ((sum y)^2 - sum y^2). *)
Definition dsum (m : nat) (f : nat -> nat -> Qc) : Qc :=
  vsum (map (fun i => vsum (map (f i) (seq 0 m))) (seq 0 m)).
Definition G_num (w : W) (y : list Qc) : Qc :=
  dsum (n w) (fun i j => weight w i j * nth i y 0 * nth j y 0).
Definition G_den (y : list Qc) : Qc :=
  vsum y * vsum y - vsum (map (fun v => v * v) y).
Definition G_obs (w : W) (y : list Qc) : float :=
  fdiv (fin (G_num w y)) (fin (G_den y)).

(** The sum of the products y_i y_j over the pairs of distinct indices. *)
Definition distinct_pairs (y : list Qc) : Qc :=
  dsum (length y) (fun i j => if (i =? j)%nat then 0 else nth i y 0 * nth j y 0).

(** Section 4.1, the tail rule:
    p_sim = (min(larger, permutations - larger) + 1) / (permutations + 1). *)
Definition p_value (larger : Z) (permutations : nat) : Qc :=
  (Z2Qc (Z.min larger (Z.of_nat permutations - larger)) + 1)
  / (N2Qc permutations + 1).

(** Section 4.1, analytic moments, over the rationals. *)
Section Moments.
Variables (nq s0 s1 s2 : Qc) (y : list Qc).
Let c (z : Z) : Qc := Z2Qc z.
Let Sy : Qc := vsum y.
Let Sy2 : Qc := vsum (map (fun v => v * v) y).
Let Sy3 : Qc := vsum (map (fun v => v * v * v) y).
Let Sy4 : Qc := vsum (map (fun v => v * v * v * v) y).

Definition EG : Qc := s0 / (nq * (nq - 1)).
Definition b0 : Qc := (nq * nq - c 3 * nq + c 3) * s1 - nq * s2 + c 3 * (s0 * s0).
Definition b1 : Qc := - ((nq * nq - nq) * s1 - c 2 * nq * s2 + c 6 * (s0 * s0)).
Definition b2 : Qc := - (c 2 * nq * s1 - (nq + c 3) * s2 + c 6 * (s0 * s0)).
Definition b3 : Qc := c 4 * (nq - 1) * s1 - c 2 * (nq + 1) * s2 + c 8 * (s0 * s0).
Definition b4 : Qc := s1 - s2 + s0 * s0.
Definition EG2_num : Qc :=
  b0 * (Sy2 * Sy2) + b1 * Sy4 + b2 * (Sy * Sy) * Sy2 + b3 * Sy * Sy3
  + b4 * (Sy * Sy * Sy * Sy).
Definition EG2_den : Qc :=
  (Sy * Sy - Sy2) * (Sy * Sy - Sy2) * (nq * (nq - 1) * (nq - c 2) * (nq - c 3)).
End Moments.

(** Section 4.2, step 1: a row of candidate positions, the first [k] entries
    of a permutation of the index range [0, m). *)
Definition position_row (m k : nat) (row : list nat) : Prop :=
  exists p, Permutation p (seq 0 m) /\ row = firstn k p.

(** Section 4.2, steps 2 and 3: the simulated value of one round for
    location [i], from the round's position row and the location's pool. *)
Definition sim_value (y : list Qc) (t : mode) (star : bool) (card_i : nat)
    (pool row : list nat) (i : nat) : float :=
  let yi := nth i y 0 in
  let s := vsum (map (fun p => nth (nth p pool 0%nat) y 0) (firstn card_i row)) in
  let s := s + (if star then yi else 0) in
  let d := match t with
           | R => N2Qc card_i + b2q star
           | B => 1
           end in
  fdiv (fdiv (fin s) (fin d)) (fin (vsum y - (1 - b2q star) * yi)).

End Spec.

(** ** Concrete inputs *)

Module Sample.
Import Num Float Weights.

Definition q (a : Z) (b : positive) : Qc := Q2Qc (Qmake a b).

(** The six points of the docstrings, with the distance band 15. *)
Definition y6 : list Qc := [q 2 1; q 3 1; q 16 5; q 5 1; q 8 1; q 7 1].
Definition w6 (m : mode) : W :=
  mkW [[1; 3]; [0; 3; 4]; [4]; [0; 1; 4]; [1; 2; 3; 5]; [4]]%nat m.

(** A path on three locations and a cycle on four. *)
Definition y3 : list Qc := [q 1 1; q 2 1; q 3 1].
Definition w3 (m : mode) : W := mkW [[1]; [0; 2]; [1]]%nat m.
Definition y4 : list Qc := [q 1 1; q 2 1; q 4 1; q 3 1].
Definition z4 : list Qc := [q 0 1; q 0 1; q 0 1; q 0 1].
Definition w4 (m : mode) : W := mkW [[1; 3]; [0; 2]; [1; 3]; [2; 0]]%nat m.

(** Capabilities for running the engines: a stand-in for the square root and
    for the normal cdf, constant aggregate sums, and a generator that
    reverses its argument. *)
Definition sqrt0 (x : Qc) : float := if Qcleb (q 0 1) x then Some x else None.
Definition cdf0 (x : Qc) : Qc := q 1 2.
Definition s1_0 (w : W) : Qc := q 1 1.
Definition s2_0 (w : W) : Qc := q 1 1.
Definition rev_y (k : nat) (l : list Qc) : list Qc := rev l.
Definition rev_ix (k : nat) (l : list nat) : list nat := rev l.

(** The engines on these capabilities. *)
Definition run_G (y : list Qc) (permutations : nat) (w : W) : W * res G.obj :=
  G.init sqrt0 cdf0 s1_0 s2_0 rev_y y permutations w.
Definition run_G_Local (y : list Qc) (t : mode) (permutations : nat) (star : bool)
    (w : W) : W * res G_Local.obj :=
  G_Local.init sqrt0 cdf0 rev_ix rev_ix y t permutations star w.

(** The fraction under a computed value. *)
Definition frac (x : float) : option Q := option_map this x.

(** A path on three locations beside a location without neighbours, and a
    graph of one location. *)
Definition w_island (m : mode) : W := mkW [[1]; [0; 2]; [1]; []]%nat m.
Definition y1 : list Qc := [q 5 1].
Definition w1 (m : mode) : W := mkW [[]] m.

End Sample.

(** ** Facts about the rationals *)

Module NumFacts.
Import Num.
Local Open Scope Qc_scope.

Lemma Z2Qc_add a b : Z2Qc (a + b) = Z2Qc a + Z2Qc b.
Proof.
  apply Qc_is_canon. unfold Z2Qc, Qcplus. cbn [this Q2Qc].
  rewrite !Qred_correct, inject_Z_plus. reflexivity.
Qed.

Lemma Z2Qc_mul a b : Z2Qc (a * b) = Z2Qc a * Z2Qc b.
Proof.
  apply Qc_is_canon. unfold Z2Qc, Qcmult. cbn [this Q2Qc].
  rewrite !Qred_correct, inject_Z_mult. reflexivity.
Qed.

Lemma Z2Qc_opp a : Z2Qc (- a) = - Z2Qc a.
Proof.
  apply Qc_is_canon. unfold Z2Qc, Qcopp. cbn [this Q2Qc].
  rewrite !Qred_correct, inject_Z_opp. reflexivity.
Qed.

Lemma Z2Qc_sub a b : Z2Qc (a - b) = Z2Qc a - Z2Qc b.
Proof.
  unfold Z.sub, Qcminus. now rewrite Z2Qc_add, Z2Qc_opp.
Qed.

Lemma Z2Qc_0 : Z2Qc 0 = 0.
Proof. apply Qc_is_canon. reflexivity. Qed.

Lemma Z2Qc_1 : Z2Qc 1 = 1.
Proof. apply Qc_is_canon. reflexivity. Qed.

Lemma Z2Qc_le a b : (a <= b)%Z -> Z2Qc a <= Z2Qc b.
Proof.
  intros H. unfold Qcle, Z2Qc. cbn [this Q2Qc]. rewrite !Qred_correct.
  now rewrite <- Zle_Qle.
Qed.

Lemma Z2Qc_lt a b : (a < b)%Z -> Z2Qc a < Z2Qc b.
Proof.
  intros H. unfold Qclt, Z2Qc. cbn [this Q2Qc]. rewrite !Qred_correct.
  now rewrite <- Zlt_Qlt.
Qed.

Lemma Z2Qc_inj a b : Z2Qc a = Z2Qc b -> a = b.
Proof.
  intros H. apply (f_equal this) in H. unfold Z2Qc in H. cbn [this Q2Qc] in H.
  assert (E : (inject_Z a == inject_Z b)%Q).
  { rewrite <- (Qred_correct (inject_Z a)), <- (Qred_correct (inject_Z b)).
    now rewrite H. }
  unfold Qeq in E. simpl in E. lia.
Qed.

Lemma Z2Qc_neq0 a : a <> 0%Z -> Z2Qc a <> 0.
Proof.
  intros H E. apply H. apply Z2Qc_inj. now rewrite Z2Qc_0.
Qed.

Lemma Qceqb_eq a b : Qceqb a b = true <-> a = b.
Proof.
  unfold Qceqb. rewrite Qeq_bool_iff. split.
  - apply Qc_is_canon.
  - now intros ->.
Qed.

Lemma Qceqb_neq a b : Qceqb a b = false <-> a <> b.
Proof.
  rewrite <- Qceqb_eq. destruct (Qceqb a b); split; congruence.
Qed.

Lemma N2Qc_S k : N2Qc (S k) = N2Qc k + 1.
Proof.
  unfold N2Qc. rewrite Nat2Z.inj_succ. unfold Z.succ.
  now rewrite Z2Qc_add, Z2Qc_1.
Qed.

Lemma N2Qc_nonneg k : 0 <= N2Qc k.
Proof.
  rewrite <- Z2Qc_0. apply Z2Qc_le. lia.
Qed.

Lemma N2Qc_neq0 k : k <> 0%nat -> N2Qc k <> 0.
Proof.
  intros H. apply Z2Qc_neq0. lia.
Qed.

Lemma N2Qc_succ_neq0 k : N2Qc k + 1 <> 0.
Proof.
  rewrite <- N2Qc_S. apply N2Qc_neq0. lia.
Qed.

Lemma Qceqb_refl a : Qceqb a a = true.
Proof. now apply Qceqb_eq. Qed.

Lemma Qcleb_le a b : Qcleb a b = true <-> a <= b.
Proof. unfold Qcleb, Qcle. apply Qle_bool_iff. Qed.

End NumFacts.

(** ** Facts about sums, vectors and matrices *)

Module VecFacts.
Import Num Float NumFacts.
Local Open Scope Qc_scope.

Lemma vsum_map_scale {A} (a : Qc) (f : A -> Qc) l :
  vsum (map (fun x => a * f x) l) = a * vsum (map f l).
Proof.
  induction l as [|x l IH]; simpl.
  - ring.
  - rewrite IH. ring.
Qed.

Lemma vsum_map_ext {A} (f g : A -> Qc) l :
  (forall x, In x l -> f x = g x) -> vsum (map f l) = vsum (map g l).
Proof.
  intros H. f_equal. now apply map_ext_in.
Qed.

Lemma vsum_scale a l : vsum (vscale a l) = a * vsum l.
Proof.
  induction l as [|x l IH]; simpl.
  - ring.
  - rewrite IH. ring.
Qed.

Lemma vsum_repeat c k : vsum (repeat c k) = N2Qc k * c.
Proof.
  induction k as [|k IH].
  - simpl. unfold N2Qc. simpl. rewrite Z2Qc_0. ring.
  - rewrite N2Qc_S. simpl. rewrite IH. ring.
Qed.

Lemma combine_map_map {A B C} (f : A -> B) (g : A -> C) l :
  combine (map f l) (map g l) = map (fun x => (f x, g x)) l.
Proof.
  induction l; simpl; congruence.
Qed.

Lemma vmul_self l : vmul l l = map (fun v => v * v) l.
Proof.
  unfold vmul. rewrite <- (map_id l) at 1 2.
  rewrite combine_map_map, map_map. reflexivity.
Qed.

Lemma vmul_map_map {A} (f g : A -> Qc) l :
  vmul (map f l) (map g l) = map (fun x => f x * g x) l.
Proof.
  unfold vmul. now rewrite combine_map_map, map_map.
Qed.

Lemma nth_map_seq {A} (f : nat -> A) d k i :
  (i < k)%nat -> nth i (map f (seq 0 k)) d = f i.
Proof.
  intros Hi.
  rewrite nth_indep with (d' := f 0%nat) by now rewrite length_map, length_seq.
  rewrite map_nth, seq_nth; auto.
Qed.

Lemma list_as_nth {A} (d : A) l :
  l = map (fun i => nth i l d) (seq 0 (length l)).
Proof.
  apply nth_ext with (d := d) (d' := d).
  - now rewrite length_map, length_seq.
  - intros i Hi. now rewrite nth_map_seq.
Qed.

Lemma nth_repeat_lt {A} (c d : A) k i : (i < k)%nat -> nth i (repeat c k) d = c.
Proof.
  revert i. induction k as [|k IH]; intros [|i] Hi; simpl; try lia; auto.
  apply IH. lia.
Qed.

Lemma fdiv_fin a b : b <> 0 -> fdiv (fin a) (fin b) = Some (a / b).
Proof.
  intros H. unfold fdiv, fin. apply Qceqb_neq in H. now rewrite H.
Qed.

Lemma fdiv_zero a : fdiv (fin a) (fin 0) = None.
Proof. reflexivity. Qed.

Lemma Qcmult_neq0 a b : a <> 0 -> b <> 0 -> a * b <> 0.
Proof.
  intros Ha Hb E. apply Qcmult_integral in E. tauto.
Qed.

End VecFacts.

(** ** Facts about exceptions and the lag operator *)

Module ResFacts.
Import Num Float Weights VecFacts.
Local Open Scope Qc_scope.

Lemma mapM_ok {A B} (f : A -> res B) (g : A -> B) l :
  (forall a, In a l -> f a = Ok (g a)) -> mapM f l = Ok (map g l).
Proof.
  induction l as [|a l IH]; intros H; simpl.
  - reflexivity.
  - rewrite (H a) by now left. simpl.
    rewrite IH by (intros; apply H; now right). reflexivity.
Qed.

Lemma mapM_length {A B} (f : A -> res B) l bs :
  mapM f l = Ok bs -> length bs = length l.
Proof.
  revert bs. induction l as [|a l IH]; intros bs; simpl.
  - intros [= <-]. reflexivity.
  - destruct (f a); simpl; try discriminate.
    destruct (mapM f l); simpl; try discriminate.
    intros [= <-]. simpl. f_equal. now apply IH.
Qed.

Lemma index_ok {A} (l : list A) i d : (i < length l)%nat -> index l i = Ok (nth i l d).
Proof.
  intros H. unfold index.
  destruct (nth_error l i) eqn:E.
  - now rewrite (nth_error_nth _ _ d E).
  - apply nth_error_None in E. lia.
Qed.

Lemma slag_ok w y :
  length y = n w -> slag w y = Ok (map (lag_at w y) (seq 0 (n w))).
Proof.
  intros H. unfold slag. now rewrite H, Nat.eqb_refl.
Qed.


Lemma n_set_transform m w : n (set_transform m w) = n w.
Proof. reflexivity. Qed.

(** The lag operator is linear in the vector. *)
Lemma lag_at_scale w a y i : lag_at w (vscale a y) i = a * lag_at w y i.
Proof.
  unfold lag_at. rewrite <- vsum_map_scale. apply vsum_map_ext.
  intros j _. unfold vscale.
  destruct (Nat.lt_ge_cases j (length y)) as [Hj|Hj].
  - rewrite nth_indep with (d' := a * 0) by now rewrite length_map.
    rewrite (map_nth (Qcmult a)). ring.
  - rewrite !nth_overflow by (try rewrite length_map; lia). ring.
Qed.

End ResFacts.

(** ** Facts about the tail rule *)

Module TailFacts.
Import Num Float NumFacts VecFacts.
Local Open Scope Qc_scope.

Lemma count_true_bounds l : (0 <= count_true l <= Z.of_nat (length l))%Z.
Proof.
  unfold count_true. pose proof (filter_length_le (fun b : bool => b) l). lia.
Qed.

Lemma tail_rule_min (P l : Z) :
  (if (P - l <? l)%Z then (P - l)%Z else l) = Z.min l (P - l).
Proof.
  destruct (Z.ltb_spec (P - l) l); lia.
Qed.

Lemma p_value_float l P :
  fdiv (fin (Z2Qc (Z.min l (Z.of_nat P - l)) + 1)) (fin (N2Qc P + 1))
  = Some (Spec.p_value l P).
Proof.
  unfold Spec.p_value. apply fdiv_fin. apply N2Qc_succ_neq0.
Qed.

Lemma Qcinv_nonneg c : 0 <= c -> 0 <= / c.
Proof.
  intros H. unfold Qcle, Qcinv in *. cbn [this Q2Qc] in *.
  rewrite (Qred_correct (/ c)). rewrite (Qred_correct 0) in *.
  now apply Qinv_le_0_compat.
Qed.

Lemma Qcdiv_le_compat a b c : 0 <= c -> a <= b -> a / c <= b / c.
Proof.
  intros Hc Hab. unfold Qcdiv. apply Qcmult_le_compat_r; [assumption|].
  now apply Qcinv_nonneg.
Qed.

(** The bounds of the empirical p-value. *)
Lemma p_value_bounds l P :
  (0 <= l <= Z.of_nat P)%Z ->
  1 / (N2Qc P + 1) <= Spec.p_value l P /\ Spec.p_value l P <= 1.
Proof.
  intros Hl. unfold Spec.p_value.
  set (m := Z.min l (Z.of_nat P - l)).
  assert (Hm : (0 <= m <= Z.of_nat P)%Z) by (subst m; lia).
  assert (HD : 0 <= N2Qc P + 1).
  { rewrite <- N2Qc_S. apply N2Qc_nonneg. }
  split.
  - apply Qcdiv_le_compat; [exact HD|].
    rewrite <- Z2Qc_1, <- Z2Qc_add. apply Z2Qc_le. lia.
  - apply Qcle_trans with ((N2Qc P + 1) / (N2Qc P + 1)).
    + apply Qcdiv_le_compat; [exact HD|].
      unfold N2Qc. rewrite <- Z2Qc_1, <- !Z2Qc_add. apply Z2Qc_le. lia.
    + unfold Qcdiv. rewrite Qcmult_inv_r by apply N2Qc_succ_neq0. apply Qcle_refl.
Qed.

End TailFacts.

(** ** Facts about the global engine *)

Module GFacts.
Import Num Float Weights St NumFacts VecFacts ResFacts TailFacts.
Local Open Scope Qc_scope.

Section Global.
Variable sqrt : Qc -> float.
Variable norm_cdf : Qc -> Qc.
Variables w_s1 w_s2 : W -> Qc.
Variable permutation : nat -> list Qc -> list Qc.

Local Abbreviation init := (G.init sqrt norm_cdf w_s1 w_s2 permutation).
Local Abbreviation simulate := (G.simulate sqrt norm_cdf permutation).
Local Abbreviation moments := (G.moments w_s1 w_s2).

Lemma calc_ok w den y : length y = n w -> G.calc w den y = Ok (G.G_of w den y).
Proof.
  intros H. unfold G.calc. now rewrite slag_ok.
Qed.


Lemma simulate_ok w y den g P :
  (forall k, length (permutation k y) = n w) ->
  exists s, simulate w y den g P = Ok s
    /\ G.sim s = map (fun i => G.G_of w den (permutation i y)) (seq 0 P).
Proof.
  intros Hp. unfold G.simulate.
  rewrite (mapM_ok _ (fun i => G.G_of w den (permutation i y))).
  - simpl. eexists. split; [reflexivity|reflexivity].
  - intros k _. now apply calc_ok.
Qed.

(** The graph after [G.__init__], whatever the call does. *)
Lemma init_state y P w : fst (init y P w) = set_transform B w.
Proof.
  unfold G.init, bind, put_transform, get, lift, ret.
  destruct (G.calc _ _ _); [|reflexivity].
  destruct P; [reflexivity|].
  destruct (G.simulate _ _ _ _ _ _ _ _); reflexivity.
Qed.


Lemma init_ok y P w :
  length y = n w ->
  (forall k, length (permutation k y) = length y) ->
  let wB := set_transform B w in
  exists o, snd (init y P w) = Ok o
    /\ G.G o = G.G_of wB (G.den_of y) y
    /\ G.mom o = moments y (Z.of_nat (length y)) wB
    /\ G.permutations o = P
    /\ G.den_sum o = G.den_of y
    /\ match P with
       | O => G.simulation o = None
       | S _ => exists s, G.simulation o = Some s
                  /\ simulate wB y (G.den_of y) (G.G o) P = Ok s
       end.
Proof.
  intros H Hp wB. unfold G.init, bind, put_transform, get, lift, ret.
  fold wB. fold (G.den_of y).
  rewrite calc_ok by (subst wB; now rewrite n_set_transform).
  destruct P as [|P].
  - eexists. split; [reflexivity|]. simpl. auto.
  - destruct (@simulate_ok wB y (G.den_of y) (G.G_of wB (G.den_of y) y) (S P)) as [s [Hs _]].
    { intros k. rewrite Hp, H. reflexivity. }
    rewrite Hs. eexists. split; [reflexivity|]. simpl.
    repeat split; auto. exists s. auto.
Qed.


(** *** The observed value *)

Lemma vsum_app a b : vsum (a ++ b) = vsum a + vsum b.
Proof.
  induction a as [|x a IH]; simpl.
  - ring.
  - rewrite IH. ring.
Qed.

Lemma vsum_as_seq y : vsum y = vsum (map (fun i => nth i y 0) (seq 0 (length y))).
Proof. now rewrite <- list_as_nth. Qed.

Lemma msum_outer y : G.msum (G.outer y) = vsum y * vsum y.
Proof.
  unfold G.msum, G.outer. rewrite map_map.
  rewrite (vsum_map_ext _ (fun a => vsum y * a)).
  - rewrite vsum_map_scale, map_id. reflexivity.
  - intros a _. rewrite vsum_map_scale, map_id. ring.
Qed.

Lemma den_of_spec y : G.den_of y = Spec.G_den y.
Proof.
  unfold G.den_of, Spec.G_den. now rewrite msum_outer, vmul_self.
Qed.

Lemma vsum_skip_diag (f : nat -> Qc) m i :
  (i < m)%nat ->
  vsum (map (fun j => if (i =? j)%nat then 0 else f j) (seq 0 m))
  = vsum (map f (seq 0 m)) - f i.
Proof.
  induction m as [|m IH]; intros Hi; [lia|].
  rewrite seq_S, !map_app, !vsum_app. simpl.
  destruct (Nat.eq_dec i m) as [->|Hne].
  - rewrite Nat.eqb_refl.
    rewrite (vsum_map_ext (fun j => if (m =? j)%nat then 0 else f j) f).
    + ring.
    + intros j Hj. apply in_seq in Hj.
      destruct (Nat.eqb_spec m j); [lia|reflexivity].
  - destruct (Nat.eqb_spec i m); [contradiction|].
    rewrite IH by lia. ring.
Qed.

Lemma distinct_pairs_spec y : Spec.distinct_pairs y = Spec.G_den y.
Proof.
  unfold Spec.distinct_pairs, Spec.dsum, Spec.G_den.
  rewrite (vsum_map_ext _
    (fun i => nth i y 0 * vsum y - nth i y 0 * nth i y 0)).
  - rewrite (list_as_nth 0 y) at 4.
    rewrite map_map.
    set (s := seq 0 (length y)).
    rewrite (vsum_as_seq y) at 2. fold s.
    assert (E : forall (g h : nat -> Qc) l,
               vsum (map (fun i => g i - h i) l) = vsum (map g l) - vsum (map h l)).
    { intros g h l. induction l as [|a l IH]; simpl; [ring|rewrite IH; ring]. }
    rewrite E. f_equal.
    rewrite (vsum_map_ext _ (fun i => vsum y * nth i y 0)).
    + now rewrite vsum_map_scale.
    + intros; ring.
  - intros i Hi. apply in_seq in Hi.
    rewrite (vsum_skip_diag (fun j => nth i y 0 * nth j y 0)) by lia.
    rewrite vsum_map_scale, <- vsum_as_seq. reflexivity.
Qed.

Lemma G_num_spec w y :
  length y = n w ->
  vsum (vmul y (map (lag_at w y) (seq 0 (n w)))) = Spec.G_num w y.
Proof.
  intros H. rewrite (list_as_nth 0 y) at 1. rewrite H.
  rewrite vmul_map_map. unfold Spec.G_num, Spec.dsum.
  apply vsum_map_ext. intros i _. unfold lag_at.
  rewrite <- vsum_map_scale. apply vsum_map_ext. intros j _. ring.
Qed.

Lemma G_of_spec w y : length y = n w -> G.G_of w (G.den_of y) y = Spec.G_obs w y.
Proof.
  intros H. unfold G.G_of, Spec.G_obs. now rewrite G_num_spec, den_of_spec.
Qed.

(** C4: for every vector y and graph w of the same size, the observed global
    statistic is the sum over the locations of y_i times the spatial lag at
    i, divided by the denominator computed once; that quotient is
    (sum_i sum_j w_ij y_i y_j) / ((sum y)^2 - sum y^2), and the denominator is
    the sum of the products over the pairs of distinct indices. *)
Theorem C4_observed_global_G y P w :
  length y = n w ->
  (forall k, length (permutation k y) = length y) ->
  let wB := set_transform B w in
  exists o, snd (init y P w) = Ok o
    /\ G.G o = fdiv (fin (vsum (vmul y (map (lag_at wB y) (seq 0 (n w))))))
                    (fin (G.den_sum o))
    /\ G.G o = Spec.G_obs wB y
    /\ G.den_sum o = Spec.G_den y
    /\ G.den_sum o = Spec.distinct_pairs y.
Proof.
  intros H Hp wB.
  destruct (init_ok y P w H Hp) as [o [Ho [HG [_ [_ [Hd _]]]]]].
  exists o. split; [exact Ho|]. fold wB in HG.
  split; [|split; [|split]].
  - rewrite HG, Hd. reflexivity.
  - rewrite HG. apply G_of_spec. exact H.
  - now rewrite Hd, den_of_spec.
  - now rewrite Hd, den_of_spec, distinct_pairs_spec.
Qed.


(** *** The analytic moments *)

Lemma vmul_cube y : vmul y (vmul y y) = map (fun v => v * (v * v)) y.
Proof.
  rewrite (vmul_self y). unfold vmul.
  induction y as [|a y IH]; simpl; [reflexivity|now rewrite IH].
Qed.

Lemma vmul_quad y : vmul (vmul y y) (vmul y y) = map (fun v => v * v * (v * v)) y.
Proof.
  rewrite (vmul_self y). now rewrite vmul_map_map.
Qed.

Lemma moments_spec y z w :
  let nq := Z2Qc z in
  let m := moments y z w in
  G.EG m = fdiv (fin (s0 w)) (fin (nq * (nq - 1)))
  /\ G.b0 m = Spec.b0 nq (s0 w) (w_s1 w) (w_s2 w)
  /\ G.b1 m = Spec.b1 nq (s0 w) (w_s1 w) (w_s2 w)
  /\ G.b2 m = Spec.b2 nq (s0 w) (w_s1 w) (w_s2 w)
  /\ G.b3 m = Spec.b3 nq (s0 w) (w_s1 w) (w_s2 w)
  /\ G.b4 m = Spec.b4 (s0 w) (w_s1 w) (w_s2 w)
  /\ G.EG2 m = fdiv (fin (Spec.EG2_num nq (s0 w) (w_s1 w) (w_s2 w) y))
                    (fin (Spec.EG2_den nq y))
  /\ G.VG m = fsub (G.EG2 m) (fmul (G.EG m) (G.EG m)).
Proof.
  intros nq m. subst m. unfold G.moments. cbn [G.EG G.EG2 G.VG G.b0 G.b1 G.b2 G.b3 G.b4].
  rewrite vmul_cube, vmul_quad, (vmul_self y).
  rewrite (vsum_map_ext (fun v => v * (v * v)) (fun v => v * v * v)) by (intros; ring).
  rewrite (vsum_map_ext (fun v => v * v * (v * v)) (fun v => v * v * v * v))
    by (intros; ring).
  unfold finZ, G.sq.
  rewrite !Z2Qc_add, !Z2Qc_sub, !Z2Qc_mul, !Z2Qc_sub, !Z2Qc_add, !Z2Qc_1.
  fold nq.
  unfold Spec.EG2_num, Spec.EG2_den, Spec.b0, Spec.b1, Spec.b2, Spec.b3, Spec.b4.
  assert (Em : Z2Qc (-1) = - (1)) by (apply Qc_is_canon; reflexivity).
  rewrite !Em.
  repeat split; try ring; unfold fin; f_equal; f_equal; ring.
Qed.

Lemma moments_small_n y w :
  (length y < 4)%nat ->
  let m := moments y (Z.of_nat (length y)) w in
  G.EG2 m = None /\ G.VG m = None.
Proof.
  intros Hn m.
  destruct (moments_spec y (Z.of_nat (length y)) w) as [_ [_ [_ [_ [_ [_ [E6 E7]]]]]]].
  fold m in E6, E7.
  assert (E : G.EG2 m = None).
  { rewrite E6. unfold Spec.EG2_den.
    set (nq := Z2Qc (Z.of_nat (length y))).
    assert (Z0 : nq * (nq - 1) * (nq - Z2Qc 2) * (nq - Z2Qc 3) = 0).
    { subst nq. rewrite <- Z2Qc_1, <- !Z2Qc_sub, <- !Z2Qc_mul, <- Z2Qc_0.
      f_equal. destruct (length y) as [|[|[|[|k]]]]; simpl; lia. }
    rewrite Z0. replace (_ * 0) with 0 by ring. apply fdiv_zero. }
  split; [exact E|]. now rewrite E7, E.
Qed.

(** C7: for every valid input with n >= 4 the analytic moments of the global
    engine are EG = s0/(n(n-1)), EG2 = the quotient of the polynomial in
    b0..b4 and the sums of powers of y by ((sum y)^2 - sum y^2)^2
    n(n-1)(n-2)(n-3), with b0..b4 as given, and VG = EG2 - EG^2 (finite
    whenever the denominator of EG2 is not zero). *)
Theorem C7_analytic_moments y P w :
  length y = n w ->
  (forall k, length (permutation k y) = length y) ->
  (4 <= length y)%nat ->
  let wB := set_transform B w in
  let nq := N2Qc (length y) in
  let s0 := s0 wB in
  let s1 := w_s1 wB in
  let s2 := w_s2 wB in
  exists o, snd (init y P w) = Ok o
    /\ G.EG (G.mom o) = Some (Spec.EG nq s0)
    /\ G.b0 (G.mom o) = Spec.b0 nq s0 s1 s2
    /\ G.b1 (G.mom o) = Spec.b1 nq s0 s1 s2
    /\ G.b2 (G.mom o) = Spec.b2 nq s0 s1 s2
    /\ G.b3 (G.mom o) = Spec.b3 nq s0 s1 s2
    /\ G.b4 (G.mom o) = Spec.b4 s0 s1 s2
    /\ G.EG2 (G.mom o) = fdiv (fin (Spec.EG2_num nq s0 s1 s2 y)) (fin (Spec.EG2_den nq y))
    /\ G.VG (G.mom o) = fsub (G.EG2 (G.mom o)) (fmul (G.EG (G.mom o)) (G.EG (G.mom o)))
    /\ (Spec.EG2_den nq y <> 0 ->
        G.VG (G.mom o)
        = Some (Spec.EG2_num nq s0 s1 s2 y / Spec.EG2_den nq y
                - Spec.EG nq s0 * Spec.EG nq s0)).
Proof.
  intros H Hp H4 wB nq s0 s1 s2.
  destruct (init_ok y P w H Hp) as [o [Ho [_ [Hm _]]]].
  exists o. split; [exact Ho|]. fold wB in Hm. rewrite Hm.
  destruct (moments_spec y (Z.of_nat (length y)) wB)
    as [E0 [E1 [E2 [E3 [E4 [E5 [E6 E7]]]]]]].
  fold (N2Qc (length y)) in E0, E1, E2, E3, E4, E6. fold nq in E0, E1, E2, E3, E4, E6.
  assert (EGv : G.EG (moments y (Z.of_nat (length y)) wB) = Some (Spec.EG nq s0)).
  { rewrite E0. apply fdiv_fin.
    subst nq. unfold N2Qc. rewrite <- Z2Qc_1, <- Z2Qc_sub, <- Z2Qc_mul.
    apply Z2Qc_neq0. nia. }
  repeat (split; [assumption|]).
  intros Hden. rewrite E7, E6, EGv, (fdiv_fin _ Hden). reflexivity.
Qed.


(** *** A constant vector *)

Lemma G_num_const w c : Spec.G_num w (repeat c (n w)) = c * c * s0 w.
Proof.
  unfold Spec.G_num, Spec.dsum, s0.
  rewrite <- (map_id (map (fun i => vsum (map (weight w i) (seq 0 (n w)))) (seq 0 (n w)))).
  rewrite map_map, <- vsum_map_scale. apply vsum_map_ext. intros i Hi.
  rewrite <- (map_id (map (weight w i) (seq 0 (n w)))).
  rewrite map_map, <- vsum_map_scale. apply vsum_map_ext. intros j Hj.
  apply in_seq in Hi. apply in_seq in Hj.
  rewrite !nth_repeat_lt by lia. ring.
Qed.

Lemma G_den_const c k : Spec.G_den (repeat c k) = c * c * (N2Qc k * (N2Qc k - 1)).
Proof.
  unfold Spec.G_den. rewrite map_repeat, !vsum_repeat. ring.
Qed.

Lemma nn1_neq0 k : (2 <= k)%nat -> N2Qc k * (N2Qc k - 1) <> 0.
Proof.
  intros H. unfold N2Qc. rewrite <- Z2Qc_1, <- Z2Qc_sub, <- Z2Qc_mul.
  apply Z2Qc_neq0. nia.
Qed.

(** C8 (amended): for every constant-valued vector y_i = c with c <> 0, on a
    graph with n >= 4, the observed statistic G equals the analytic
    expectation EG = s0/(n(n-1)). *)
Theorem C8_constant_vector_nonzero c P w :
  c <> 0 ->
  (4 <= n w)%nat ->
  (forall k, length (permutation k (repeat c (n w))) = n w) ->
  exists o, snd (init (repeat c (n w)) P w) = Ok o
    /\ G.G o = G.EG (G.mom o)
    /\ G.EG (G.mom o) = Some (Spec.EG (N2Qc (n w)) (s0 (set_transform B w))).
Proof.
  intros Hc H4 Hp.
  set (y := repeat c (n w)).
  assert (Hl : length y = n w) by apply repeat_length.
  destruct (init_ok y P w Hl) as [o [Ho [HG [Hm _]]]].
  { intros k. rewrite Hl. apply Hp. }
  exists o. split; [exact Ho|].
  set (wB := set_transform B w) in *.
  destruct (moments_spec y (Z.of_nat (length y)) wB) as [E0 _].
  rewrite <- Hm in E0. rewrite Hl in E0. fold (N2Qc (n w)) in E0.
  assert (Hn : N2Qc (n w) * (N2Qc (n w) - 1) <> 0) by (apply nn1_neq0; lia).
  rewrite (fdiv_fin _ Hn) in E0.
  split; [|exact E0].
  rewrite E0, HG, G_of_spec by exact Hl.
  unfold Spec.G_obs, y.
  change (n w) with (n wB) at 1. rewrite G_num_const, G_den_const.
  rewrite fdiv_fin by (apply Qcmult_neq0; [now apply Qcmult_neq0|exact Hn]).
  f_equal. unfold Spec.EG.
  set (D := N2Qc (n w) * (N2Qc (n w) - 1)) in *.
  field. split; assumption.
Qed.

(** C1: the global engine leaves the graph in the binary transform, whatever
    the mode was before the call: the caller's mode is not put back (the
    local engine saves it in [w_original] and puts it back). *)
Theorem C1_global_engine_leaves_binary y P w :
  transform (fst (init y P w)) = B.
Proof.
  now rewrite init_state.
Qed.


(** *** The empirical p-value *)

Lemma simulate_p_sim w y den g P s :
  simulate w y den g P = Ok s ->
  length (G.sim s) = P
  /\ G.p_sim s
     = Some (Spec.p_value (count_true (map (fun v => fge v g) (G.sim s))) P).
Proof.
  unfold G.simulate. destruct (mapM _ _) as [sims|] eqn:E; simpl; [|discriminate].
  intros [= <-]. cbn [G.sim G.p_sim]. split.
  - rewrite (mapM_length _ _ E). apply length_seq.
  - rewrite tail_rule_min. apply p_value_float.
Qed.

End Global.
End GFacts.

(** ** Facts about the local engine *)

Module LFacts.
Import Num Float Weights St NumFacts VecFacts ResFacts TailFacts.
Local Open Scope Qc_scope.

Lemma getCardinalities_ok w :
  G_Local.getCardinalities (n w) w = Ok (cardinalities w).
Proof.
  unfold G_Local.getCardinalities.
  rewrite (mapM_ok _ (fun i => nth i (cardinalities w) 0%nat)).
  - f_equal. symmetry.
    replace (n w) with (length (cardinalities w))
      by (unfold cardinalities; now rewrite length_map).
    apply list_as_nth.
  - intros i Hi. apply in_seq in Hi. unfold id_order.
    rewrite (index_ok _ 0%nat) by (rewrite length_seq; lia).
    rewrite seq_nth by lia. simpl.
    apply index_ok. unfold cardinalities. rewrite length_map. fold (n w). lia.
Qed.

Lemma pydiv_ok a b : b <> 0%Z -> G_Local.pydiv a b = Ok (a / Z2Qc b).
Proof.
  intros H. unfold G_Local.pydiv. destruct (Z.eqb_spec b 0); [contradiction|reflexivity].
Qed.

Lemma fmap2_length f a b : length (fmap2 f a b) = Nat.min (length a) (length b).
Proof.
  unfold fmap2. now rewrite length_map, length_combine.
Qed.

Lemma vadd_length a b : length (vadd a b) = Nat.min (length a) (length b).
Proof.
  unfold vadd. now rewrite length_map, length_combine.
Qed.

Lemma vadd_scale a u v : vadd (vscale a u) (vscale a v) = vscale a (vadd u v).
Proof.
  unfold vadd, vscale. revert v.
  induction u as [|x u IH]; intros [|z v]; simpl; try reflexivity.
  rewrite IH. f_equal. ring.
Qed.

(** *** Matrices *)

Lemma nth_map_combine {A B C} (f : A * B -> C) a b j da db dc :
  length a = length b -> (j < length a)%nat ->
  nth j (map f (combine a b)) dc = f (nth j a da, nth j b db).
Proof.
  intros Hab Hj.
  rewrite nth_indep with (d' := f (da, db))
    by (rewrite length_map, length_combine; lia).
  now rewrite map_nth, combine_nth.
Qed.

Lemma nth_map_in {A B} (f : A -> B) l j da db :
  (j < length l)%nat -> nth j (map f l) db = f (nth j l da).
Proof.
  intros Hj. rewrite nth_indep with (d' := f da) by now rewrite length_map.
  apply map_nth.
Qed.

(** Column [j] of [sim >= Gs], for [sim] the transpose of [rGs], is row [j] of
    [rGs] compared with [Gs[j]]. *)
Lemma col_above rGs Gs P j :
  length rGs = length Gs ->
  (j < length rGs)%nat ->
  length (nth j rGs []) = P ->
  col false (G_Local.above (transpose None P rGs) Gs) j
  = map (fun v => fge v (nth j Gs None)) (nth j rGs []).
Proof.
  intros Hl Hj HP. unfold col, G_Local.above, transpose. rewrite !map_map.
  rewrite (list_as_nth None (nth j rGs [])) at 1. rewrite HP, map_map.
  apply map_ext. intros r.
  rewrite (@nth_map_combine float float bool _ _ _ _ None None false)
    by (unfold col; rewrite ?length_map; assumption).
  cbn [fst snd]. unfold col.
  now rewrite (@nth_map_in (list float) float _ _ _ [] None) by assumption.
Qed.

Lemma concat_transpose_length {A} (d : A) P m :
  length (concat (transpose d P m)) = (P * length m)%nat.
Proof.
  unfold transpose.
  replace P with (length (seq 0 P)) at 2 by apply length_seq.
  generalize (seq 0 P). intros l.
  induction l as [|r l IH]; simpl; [reflexivity|].
  rewrite length_app, IH. unfold col. now rewrite length_map.
Qed.

Section Local.
Variable sqrt : Qc -> float.
Variable norm_cdf : Qc -> Qc.
Variable permutation : nat -> list nat -> list nat.
Variable shuffle : nat -> list nat -> list nat.

Local Abbreviation init := (G_Local.init sqrt norm_cdf permutation shuffle).
Local Abbreviation calc := (G_Local.calc sqrt).
Local Abbreviation crand := (G_Local.crand permutation shuffle).
Local Abbreviation simulate := (G_Local.simulate sqrt norm_cdf permutation shuffle).

(** *** The observed statistic *)

Lemma calc_star_ok y t wo w :
  length y = n w -> length y <> 0%nat ->
  let wB := set_transform B w in
  let yl := vadd (map (lag_at wB y) (seq 0 (n w))) y in
  exists c, calc (length y) y t true wo w = (set_transform wo w, Ok c)
    /\ G_Local.y_sum c = vsum y
    /\ G_Local.Gs c
       = map (fun v => fdiv v (fin (vsum y)))
           match t with
           | R => fmap2 fdiv (fins yl) (map (fun c => fin (N2Qc c + 1)) (cardinalities w))
           | B => fins yl
           end.
Proof.
  intros H Hn wB yl.
  unfold G_Local.calc, G_Local.calc_star, bind, put_transform, get, lift, ret.
  cbn [negb].
  rewrite slag_ok by exact H.
  rewrite (n_set_transform B w). fold wB. fold yl.
  assert (HN : Z.of_nat (length y) <> 0%Z) by lia.
  assert (HN2 : (Z.of_nat (length y) * Z.of_nat (length y))%Z <> 0%Z) by nia.
  assert (HC : G_Local.getCardinalities (length y) wB = Ok (cardinalities w))
    by (rewrite H; apply (getCardinalities_ok wB)).
  destruct t; rewrite ?HC, ?(pydiv_ok _ HN), ?(pydiv_ok _ HN2);
    (eexists; split; [reflexivity|]; split; reflexivity).
Qed.

Lemma calc_plain_ok y t wo w :
  length y = n w -> length y <> 1%nat ->
  let yl := map (lag_at w y) (seq 0 (n w)) in
  exists c, calc (length y) y t false wo w = (set_transform wo w, Ok c)
    /\ G_Local.y_sum c = vsum y
    /\ G_Local.Gs c = fmap2 fdiv (fins yl) (fins (map (fun yi => vsum y - yi) y)).
Proof.
  intros H Hn yl.
  unfold G_Local.calc, G_Local.calc_plain, bind, put_transform, get, lift, ret.
  cbn [negb].
  rewrite slag_ok by exact H. fold yl.
  assert (HN : (Z.of_nat (length y) - 1)%Z <> 0%Z) by lia.
  assert (HN2 : ((Z.of_nat (length y) - 1) * (Z.of_nat (length y) - 1))%Z <> 0%Z) by nia.
  assert (HC : G_Local.getCardinalities (length y) w = Ok (cardinalities w))
    by (rewrite H; apply getCardinalities_ok).
  destruct t; rewrite ?HC, ?(pydiv_ok _ HN), ?(pydiv_ok _ HN2);
    (eexists; split; [reflexivity|]; split; reflexivity).
Qed.



(** *** Scaling the vector *)

Lemma fdiv_scale2 a x s :
  a <> 0 -> fdiv (fin (a * x)) (fin (a * s)) = fdiv (fin x) (fin s).
Proof.
  intros Ha. unfold fdiv, fin.
  destruct (Qceqb s 0) eqn:Es.
  - apply Qceqb_eq in Es. subst s.
    replace (a * 0) with 0 by ring. now rewrite Qceqb_refl.
  - apply Qceqb_neq in Es.
    assert (E : Qceqb (a * s) 0 = false).
    { apply Qceqb_neq. intros E. apply Qcmult_integral in E. tauto. }
    rewrite E. f_equal. field. tauto.
Qed.

Lemma fdiv_scale3 a x d s :
  a <> 0 ->
  fdiv (fdiv (fin (a * x)) (fin d)) (fin (a * s)) = fdiv (fdiv (fin x) (fin d)) (fin s).
Proof.
  intros Ha.
  destruct (Qc_eq_dec d 0) as [->|Ed].
  - reflexivity.
  - rewrite !(fdiv_fin _ Ed).
    replace (a * x / d) with (a * (x / d)) by (field; exact Ed).
    apply (fdiv_scale2 (x / d) s Ha).
Qed.

Lemma Gs_scale_B a S z :
  a <> 0 ->
  map (fun v => fdiv v (fin (a * S))) (fins (vscale a z))
  = map (fun v => fdiv v (fin S)) (fins z).
Proof.
  intros Ha. unfold fins, vscale. rewrite !map_map.
  apply map_ext. intros x. now apply fdiv_scale2.
Qed.

Lemma Gs_scale_R {A} a S z (g : A -> Qc) l :
  a <> 0 ->
  map (fun v => fdiv v (fin (a * S)))
      (fmap2 fdiv (fins (vscale a z)) (map (fun c => fin (g c)) l))
  = map (fun v => fdiv v (fin S)) (fmap2 fdiv (fins z) (map (fun c => fin (g c)) l)).
Proof.
  intros Ha. unfold fmap2, fins, vscale. revert l.
  induction z as [|x z IH]; intros [|c l]; simpl; try reflexivity.
  rewrite IH. f_equal. now apply fdiv_scale3.
Qed.

Lemma lag_scale w a y l :
  map (lag_at w (vscale a y)) l = vscale a (map (lag_at w y) l).
Proof.
  unfold vscale at 2. rewrite map_map. apply map_ext. intros i. apply lag_at_scale.
Qed.

(** C9: for every vector y, graph w and positive constant a, the local G*
    statistic (star = true) computed on a*y has, at every location, the value
    computed on y, under either requested transform. *)
Theorem C9_local_Gstar_scale_invariant y t wo w a :
  length y = n w -> length y <> 0%nat -> 0 < a ->
  exists c c',
    calc (length y) y t true wo w = (set_transform wo w, Ok c)
    /\ calc (length (vscale a y)) (vscale a y) t true wo w = (set_transform wo w, Ok c')
    /\ length (G_Local.Gs c) = n w
    /\ G_Local.Gs c' = G_Local.Gs c.
Proof.
  intros H Hn Ha.
  assert (Ha0 : a <> 0) by (intros ->; now apply (Qclt_not_eq 0 0)).
  assert (Hl : length (vscale a y) = length y) by (unfold vscale; now rewrite length_map).
  destruct (calc_star_ok y t wo w H Hn) as [c [Hc [_ HGs]]].
  destruct (calc_star_ok (vscale a y) t wo w) as [c' [Hc' [_ HGs']]];
    [now rewrite Hl|now rewrite Hl|].
  exists c, c'. split; [exact Hc|]. split; [exact Hc'|].
  split.
  - rewrite HGs, length_map.
    assert (Hyl : length (fins (vadd (map (lag_at (set_transform B w) y) (seq 0 (n w))) y))
                  = n w).
    { unfold fins. rewrite length_map, vadd_length, length_map, length_seq. lia. }
    destruct t; [exact Hyl|].
    rewrite fmap2_length, Hyl, length_map. unfold cardinalities.
    rewrite length_map. fold (n w). lia.
  - rewrite HGs', HGs, lag_scale, vadd_scale, vsum_scale.
    destruct t.
    + now apply Gs_scale_B.
    + now apply Gs_scale_R.
Qed.


(** *** The conditional permutation *)

Lemma in_firstn {A} (x : A) k l : In x (firstn k l) -> In x l.
Proof.
  intros H. rewrite <- (firstn_skipn k l). apply in_or_app. now left.
Qed.

Lemma filter_all {A} (f : A -> bool) l :
  (forall x, In x l -> f x = true) -> filter f l = l.
Proof.
  induction l as [|a l IH]; intros H; simpl; [reflexivity|].
  rewrite (H a) by now left. f_equal. apply IH. intros; apply H. now right.
Qed.

Lemma others_length i m :
  (i < m)%nat -> length (filter (fun j => negb (j =? i)%nat) (seq 0 m)) = (m - 1)%nat.
Proof.
  induction m as [|m IH]; intros Hi; [lia|].
  rewrite seq_S, filter_app, length_app. simpl.
  destruct (Nat.eqb_spec m i) as [->|Hne]; simpl.
  - rewrite filter_all, length_seq; [lia|].
    intros x Hx. apply in_seq in Hx.
    destruct (Nat.eqb_spec x i); [lia|reflexivity].
  - rewrite IH by lia. lia.
Qed.

Section Draws.
Hypothesis permutation_perm : forall k l, Permutation (permutation k l) l.
Hypothesis shuffle_perm : forall k l, Permutation (shuffle k l) l.

Lemma idsi_perm w i :
  Permutation (G_Local.crand_idsi shuffle w i)
              (filter (fun j => negb (j =? i)%nat) (seq 0 (n w))).
Proof. apply shuffle_perm. Qed.

Lemma idsi_length w i :
  (i < n w)%nat -> length (G_Local.crand_idsi shuffle w i) = (n w - 1)%nat.
Proof.
  intros Hi. rewrite (Permutation_length (idsi_perm w i)). now apply others_length.
Qed.

Lemma idsi_bound w i j :
  In j (G_Local.crand_idsi shuffle w i) -> (j < n w)%nat /\ j <> i.
Proof.
  intros Hj. apply (Permutation_in _ (idsi_perm w i)) in Hj.
  apply filter_In in Hj. destruct Hj as [Hs Hne]. apply in_seq in Hs.
  split; [lia|]. destruct (Nat.eqb_spec j i); [discriminate|assumption].
Qed.

Lemma rids_length m w P : length (G_Local.crand_rids permutation m w P) = P.
Proof.
  unfold G_Local.crand_rids. now rewrite length_map, length_seq.
Qed.

Lemma rids_nth m w P r :
  (r < P)%nat ->
  nth r (G_Local.crand_rids permutation m w P) []
  = firstn (max_neighbors w + 1) (permutation r (seq 0 (m - 1))).
Proof.
  intros Hr. unfold G_Local.crand_rids. now rewrite nth_map_seq.
Qed.

Lemma rids_in m w P row :
  In row (G_Local.crand_rids permutation m w P) ->
  exists r, (r < P)%nat
    /\ row = firstn (max_neighbors w + 1) (permutation r (seq 0 (m - 1))).
Proof.
  unfold G_Local.crand_rids. intros H. apply in_map_iff in H.
  destruct H as [r [E Hr]]. apply in_seq in Hr. exists r. split; [lia|now symmetry].
Qed.

Lemma row_bound m w P row p :
  In row (G_Local.crand_rids permutation m w P) -> In p row -> (p < m - 1)%nat.
Proof.
  intros Hrow Hp. destruct (rids_in _ _ _ _ Hrow) as [r [_ ->]].
  apply in_firstn in Hp. apply (Permutation_in _ (permutation_perm r _)) in Hp.
  apply in_seq in Hp. lia.
Qed.

Lemma row_length m w P row :
  In row (G_Local.crand_rids permutation m w P) ->
  length row = Nat.min (max_neighbors w + 1) (m - 1).
Proof.
  intros Hrow. destruct (rids_in _ _ _ _ Hrow) as [r [_ ->]].
  now rewrite length_firstn, (Permutation_length (permutation_perm r _)), length_seq.
Qed.

Lemma crand_sums_ok y w i wci P :
  length y = n w -> (i < n w)%nat ->
  let idsi := G_Local.crand_idsi shuffle w i in
  let rids := G_Local.crand_rids permutation (length y) w P in
  G_Local.crand_sums y idsi rids wci
  = Ok (map (fun row => vsum (map (fun p => nth (nth p idsi 0%nat) y 0) (firstn wci row)))
            rids).
Proof.
  intros H Hi idsi rids. unfold G_Local.crand_sums.
  apply mapM_ok. intros row Hrow.
  rewrite (mapM_ok _ (fun p => nth (nth p idsi 0%nat) y 0)); [reflexivity|].
  intros p Hp. apply in_firstn in Hp.
  pose proof (row_bound _ _ _ _ _ Hrow Hp) as Hb.
  rewrite (index_ok _ 0%nat) by (subst idsi; rewrite idsi_length; lia).
  simpl. apply index_ok.
  assert (Hin : In (nth p idsi 0%nat) idsi).
  { apply nth_In. subst idsi. rewrite idsi_length; lia. }
  apply idsi_bound in Hin. lia.
Qed.

Lemma max_neighbors_ge w i :
  (nth i (cardinalities w) 0 <= max_neighbors w)%nat.
Proof.
  unfold max_neighbors. generalize (cardinalities w). intros l. revert i.
  induction l as [|c l IH]; intros [|i]; simpl; try lia.
  specialize (IH i). lia.
Qed.

(** [__crand] returns, and each simulated value has the form of the
    specification. *)
Lemma crand_ok y w t star P :
  length y = n w ->
  crand (length y) y w t star P (vsum y)
  = Ok (map (fun i =>
              map (fun row =>
                     Spec.sim_value y t star (nth i (cardinalities w) 0%nat)
                       (G_Local.crand_idsi shuffle w i) row i)
                  (G_Local.crand_rids permutation (length y) w P))
            (seq 0 (n w))).
Proof.
  intros H. unfold G_Local.crand.
  assert (HC : G_Local.getCardinalities (length y) w = Ok (cardinalities w))
    by (rewrite H; apply getCardinalities_ok).
  rewrite HC. cbn [res_bind].
  replace (length y - n w)%nat with 0%nat by lia. cbn [repeat].
  rewrite (mapM_ok _ (fun i =>
              map (fun row =>
                     Spec.sim_value y t star (nth i (cardinalities w) 0%nat)
                       (G_Local.crand_idsi shuffle w i) row i)
                  (G_Local.crand_rids permutation (length y) w P))).
  - simpl. now rewrite app_nil_r.
  - intros i Hi. apply in_seq in Hi.
    assert (Hc : length (cardinalities w) = n w)
      by (unfold cardinalities; now rewrite length_map).
    rewrite (index_ok _ 0) by lia. simpl.
    rewrite (index_ok _ 0%nat) by lia. simpl.
    rewrite crand_sums_ok by (auto; lia). simpl.
    assert (Hd : index match t with
                       | B => repeat 1 (n w)
                       | R => map (fun c => N2Qc c + b2q star) (cardinalities w)
                       end i
                 = Ok match t with
                      | B => 1
                      | R => N2Qc (nth i (cardinalities w) 0%nat) + b2q star
                      end).
    { destruct t.
      - rewrite (index_ok _ 0) by (rewrite repeat_length; lia).
        now rewrite nth_repeat_lt by lia.
      - rewrite (index_ok _ 0) by (rewrite length_map; lia).
        rewrite nth_indep with (d' := N2Qc 0 + b2q star) by (rewrite length_map; lia).
        now rewrite (map_nth (fun c => N2Qc c + b2q star)). }
    rewrite Hd. simpl. f_equal. rewrite map_map. apply map_ext. intros row.
    unfold Spec.sim_value.
    replace (nth i y 0 * b2q star) with (if star then nth i y 0 else 0)
      by (destruct star; simpl; ring).
    reflexivity.
Qed.

(** C3 (amended): for a vector of the graph's length and n >= 2, the
    candidate-position matrix has one row per round, each row the first
    k = max cardinality + 1 entries of a permutation of the index range
    [0, n-1) (the n-1 positions 0 .. n-2 of a pool); the pool of location i is
    a shuffle of the other n-1 location indices; the simulated value of a
    round is the sum of y over the pool entries selected by the first
    cardinality_i positions of the round's row, plus y_i if star, divided by
    cardinality_i + star if row-standardized else by 1, then divided by
    (sum y - (1 - star) y_i). *)
Theorem C3_conditional_permutation y w t star P :
  length y = n w -> (2 <= n w)%nat ->
  let rids := G_Local.crand_rids permutation (length y) w P in
  let pool := G_Local.crand_idsi shuffle w in
  length rids = P
  /\ (forall r, (r < P)%nat ->
        Spec.position_row (n w - 1) (max_neighbors w + 1) (nth r rids []))
  /\ (forall i, (i < n w)%nat ->
        Permutation (pool i) (filter (fun j => negb (j =? i)%nat) (seq 0 (n w)))
        /\ length (pool i) = (n w - 1)%nat)
  /\ exists rGs,
       crand (length y) y w t star P (vsum y) = Ok rGs
       /\ length rGs = n w
       /\ forall i r, (i < n w)%nat -> (r < P)%nat ->
            length (nth i rGs []) = P
            /\ nth r (nth i rGs []) None
               = Spec.sim_value y t star (nth i (cardinalities w) 0%nat)
                   (pool i) (nth r rids []) i.
Proof.
  intros H _ rids pool.
  split; [apply rids_length|].
  split.
  { intros r Hr. exists (permutation r (seq 0 (n w - 1))). split.
    - apply permutation_perm.
    - subst rids. rewrite rids_nth by exact Hr. now rewrite H. }
  split.
  { intros i Hi. split; [apply idsi_perm|now apply idsi_length]. }
  eexists. split; [now apply crand_ok|].
  split; [now rewrite length_map, length_seq|].
  intros i r Hi Hr. rewrite nth_map_seq by exact Hi.
  split; [now rewrite length_map, rids_length|].
  fold rids. fold (pool i).
  rewrite nth_indep
    with (d' := Spec.sim_value y t star (nth i (cardinalities w) 0%nat) (pool i) [] i)
    by (rewrite length_map; subst rids; now rewrite rids_length).
  now rewrite (map_nth (fun row => Spec.sim_value y t star _ (pool i) row i)).
Qed.

(** C10: for a vector of the graph's length and n >= 2, under the invariant
    that every cardinality is at most n-1, every access of the conditional
    permutation is in bounds: the entries of a position row index the shuffled
    pool of a location, the selection of the first cardinality_i columns stays
    within the row, the pool entries index the attribute vector, and
    [__crand] raises no exception. *)
Theorem C10_crand_in_bounds y w t star P :
  length y = n w -> (2 <= n w)%nat ->
  (forall c, In c (cardinalities w) -> (c <= n w - 1)%nat) ->
  let rids := G_Local.crand_rids permutation (length y) w P in
  let pool := G_Local.crand_idsi shuffle w in
  (forall row, In row rids ->
     length row = Nat.min (max_neighbors w + 1) (n w - 1)
     /\ forall i p, (i < n w)%nat -> In p row -> (p < length (pool i))%nat)
  /\ (forall row i, In row rids -> (i < n w)%nat ->
        (nth i (cardinalities w) 0 <= length row)%nat)
  /\ (forall i j, (i < n w)%nat -> In j (pool i) -> (j < length y)%nat)
  /\ (exists rGs, crand (length y) y w t star P (vsum y) = Ok rGs)
  /\ (forall e, crand (length y) y w t star P (vsum y) <> Raise e).
Proof.
  intros H _ Hcard rids pool.
  assert (Hlen : forall row, In row rids ->
                 length row = Nat.min (max_neighbors w + 1) (n w - 1)).
  { intros row Hrow. subst rids. rewrite (row_length _ _ _ _ Hrow). now rewrite H. }
  split; [|split; [|split; [|split]]].
  - intros row Hrow. split; [now apply Hlen|].
    intros i p Hi Hp. subst pool. rewrite idsi_length by exact Hi.
    rewrite <- H. exact (row_bound _ _ _ _ _ Hrow Hp).
  - intros row i Hrow Hi. rewrite (Hlen _ Hrow).
    pose proof (max_neighbors_ge w i) as Hmax.
    assert (Hc : (nth i (cardinalities w) 0 <= n w - 1)%nat).
    { apply Hcard, nth_In. unfold cardinalities. rewrite length_map. exact Hi. }
    lia.
  - intros i j Hi Hj. apply idsi_bound in Hj. lia.
  - eexists. now apply crand_ok.
  - intros e. rewrite crand_ok by exact H. discriminate.
Qed.


(** *** The permutation inference *)

Lemma crand_shape y w t star P rGs :
  length y = n w ->
  crand (length y) y w t star P (vsum y) = Ok rGs ->
  length rGs = n w
  /\ forall i, (i < n w)%nat -> length (nth i rGs []) = P.
Proof.
  intros H E. rewrite crand_ok in E by exact H. injection E as <-.
  split; [now rewrite length_map, length_seq|].
  intros i Hi. rewrite nth_map_seq by exact Hi.
  now rewrite length_map, rids_length.
Qed.

Lemma local_simulate_ok y w t star P c :
  length y = n w -> G_Local.y_sum c = vsum y -> length (G_Local.Gs c) = n w ->
  exists s, simulate (length y) y w t star P c = Ok s
    /\ crand (length y) y w t star P (vsum y) = Ok (G_Local.rGs s)
    /\ G_Local.sim s = transpose None P (G_Local.rGs s)
    /\ G_Local.p_sim s
       = map (fun i =>
                Some (Spec.p_value
                        (count_true (map (fun v => fge v (nth i (G_Local.Gs c) None))
                                         (nth i (G_Local.rGs s) []))) P))
             (seq 0 (n w))
    /\ G_Local.EG_sim s = fmean (concat (G_Local.sim s))
    /\ G_Local.seG_sim s = G_Local.fsqrt sqrt (fvar (concat (G_Local.sim s)))
    /\ G_Local.VG_sim s = fmul (G_Local.seG_sim s) (G_Local.seG_sim s)
    /\ G_Local.z_sim s
       = map (fun g => fdiv (fsub g (G_Local.EG_sim s)) (G_Local.seG_sim s))
             (G_Local.Gs c)
    /\ G_Local.p_z_sim s = map (G_Local.norm_tail norm_cdf) (G_Local.z_sim s).
Proof.
  intros H Hs Hg. unfold G_Local.simulate. rewrite Hs.
  destruct (crand (length y) y w t star P (vsum y)) as [rGs|e] eqn:E.
  2:{ rewrite crand_ok in E by exact H. discriminate. }
  destruct (@crand_shape _ _ _ _ _ _ H E) as [Hrows Hcols].
  cbn [res_bind]. eexists. split; [reflexivity|].
  cbn [G_Local.rGs G_Local.sim G_Local.p_sim G_Local.EG_sim G_Local.seG_sim
       G_Local.VG_sim G_Local.z_sim G_Local.p_z_sim].
  split; [reflexivity|]. split; [reflexivity|].
  split; [|repeat split; reflexivity].
  unfold sum_axis0. rewrite !map_map, H. apply map_ext_in.
  intros i Hi. apply in_seq in Hi.
  rewrite tail_rule_min, p_value_float.
  rewrite (@col_above rGs (G_Local.Gs c) P i).
  - reflexivity.
  - transitivity (n w); [exact Hrows|symmetry; exact Hg].
  - apply Nat.lt_le_trans with (n w); [lia|].
    apply Nat.eq_le_incl. symmetry. exact Hrows.
  - apply Hcols; lia.
Qed.

Lemma set_transform_restore t w : set_transform (transform w) (set_transform t w) = w.
Proof. destruct w; reflexivity. Qed.

Lemma star_Gs_length y w t :
  length y = n w ->
  let yl := vadd (map (lag_at (set_transform B w) y) (seq 0 (n w))) y in
  length (map (fun v => fdiv v (fin (vsum y)))
            match t with
            | R => fmap2 fdiv (fins yl) (map (fun c => fin (N2Qc c + 1)) (cardinalities w))
            | B => fins yl
            end) = n w.
Proof.
  intros H yl. rewrite length_map.
  assert (Hyl : length (fins yl) = n w).
  { unfold fins, yl. rewrite length_map, vadd_length, length_map, length_seq. lia. }
  destruct t; [exact Hyl|].
  rewrite fmap2_length, Hyl, length_map. unfold cardinalities.
  rewrite length_map. fold (n w). lia.
Qed.

Lemma local_calc_ok y t star wo w :
  length y = n w -> (2 <= n w)%nat ->
  exists c, calc (length y) y t star wo w = (set_transform wo w, Ok c)
    /\ G_Local.y_sum c = vsum y
    /\ length (G_Local.Gs c) = n w.
Proof.
  intros H Hn. destruct star.
  - destruct (calc_star_ok y t wo w H) as [c [Hc [Hs HG]]]; [lia|].
    exists c. split; [exact Hc|]. split; [exact Hs|].
    rewrite HG. now apply star_Gs_length.
  - destruct (calc_plain_ok y t wo w H) as [c [Hc [Hs HG]]]; [lia|].
    exists c. split; [exact Hc|]. split; [exact Hs|].
    rewrite HG, fmap2_length. unfold fins.
    rewrite !length_map, length_seq. lia.
Qed.

Lemma local_init_ok y t P star w :
  length y = n w -> (2 <= n w)%nat ->
  exists o, init y t P star w = (w, Ok o)
    /\ G_Local.y_sum (G_Local.stat o) = vsum y
    /\ length (G_Local.Gs (G_Local.stat o)) = n w
    /\ match P with
       | O => G_Local.simulation o = None
       | S _ => exists s, G_Local.simulation o = Some s
                  /\ simulate (length y) y w t star P (G_Local.stat o) = Ok s
       end.
Proof.
  intros H Hn. unfold G_Local.init, bind, get, put_transform, lift, ret.
  destruct (local_calc_ok y t star (transform w) (set_transform t w) H Hn)
    as [c [Hc [Hs HG]]].
  rewrite Hc, set_transform_restore.
  destruct P as [|P].
  - eexists. split; [reflexivity|]. cbn. auto.
  - destruct (local_simulate_ok y w t star (S P) c H Hs HG) as [s [Es _]].
    rewrite Es. eexists. split; [reflexivity|]. cbn.
    split; [exact Hs|]. split; [exact HG|]. exists s. auto.
Qed.


(** C6: with permutations > 0, the simulation summary of the local engine is
    made of scalars computed over the pooled matrix of all n * permutations
    simulated values: EG_sim its mean, seG_sim its standard deviation, VG_sim
    the square of that; z_sim and p_z_sim have one entry per location, derived
    from these pooled scalars. *)
Theorem C6_pooled_simulation_summary y t P star w :
  length y = n w -> (2 <= n w)%nat -> (0 < P)%nat ->
  exists o s,
    snd (init y t P star w) = Ok o
    /\ G_Local.simulation o = Some s
    /\ length (concat (G_Local.sim s)) = (P * n w)%nat
    /\ G_Local.EG_sim s
       = fdiv (fsum (concat (G_Local.sim s))) (finZ (Z.of_nat (P * n w)))
    /\ G_Local.seG_sim s = G_Local.fsqrt sqrt (fvar (concat (G_Local.sim s)))
    /\ G_Local.VG_sim s = fmul (G_Local.seG_sim s) (G_Local.seG_sim s)
    /\ length (G_Local.z_sim s) = n w
    /\ (forall i, (i < n w)%nat ->
          nth i (G_Local.z_sim s) None
          = fdiv (fsub (nth i (G_Local.Gs (G_Local.stat o)) None) (G_Local.EG_sim s))
                 (G_Local.seG_sim s))
    /\ G_Local.p_z_sim s = map (G_Local.norm_tail norm_cdf) (G_Local.z_sim s).
Proof.
  intros H Hn HP. destruct P as [|P]; [lia|].
  destruct (local_init_ok y t (S P) star w H Hn) as [o [Ho [Hs [HG [s [Hsim Es]]]]]].
  destruct (local_simulate_ok y w t star (S P) (G_Local.stat o) H Hs HG)
    as [s' [Es' [Hr [Hm [_ [HE [Hse [HV [Hz Hpz]]]]]]]]].
  rewrite Es in Es'. injection Es' as <-.
  destruct (@crand_shape _ _ _ _ _ _ H Hr) as [Hrows _].
  assert (Hlen : length (concat (G_Local.sim s)) = (S P * n w)%nat).
  { now rewrite Hm, concat_transpose_length, Hrows. }
  exists o, s. split; [now rewrite Ho|]. split; [exact Hsim|].
  split; [exact Hlen|].
  split; [rewrite HE; unfold fmean; now rewrite Hlen|].
  split; [exact Hse|]. split; [exact HV|].
  split; [now rewrite Hz, length_map|].
  split; [|exact Hpz].
  intros i Hi. rewrite Hz.
  now rewrite (@nth_map_in float float _ _ _ None None) by lia.
Qed.

End Draws.

End Local.
End LFacts.

(** ** Properties shared by the two engines *)

Module Engines.
Import Num Float Weights St NumFacts VecFacts ResFacts TailFacts.
Local Open Scope Qc_scope.

Section Both.
Variable sqrt : Qc -> float.
Variable norm_cdf : Qc -> Qc.
Variables w_s1 w_s2 : W -> Qc.
Variable permutation_y : nat -> list Qc -> list Qc.
Variable permutation : nat -> list nat -> list nat.
Variable shuffle : nat -> list nat -> list nat.

Local Abbreviation computeGlobalG := (G.init sqrt norm_cdf w_s1 w_s2 permutation_y).
Local Abbreviation computeLocalG := (G_Local.init sqrt norm_cdf permutation shuffle).

(** The local engine hands the graph back as it received it. *)
Lemma local_engine_restores y t P star w :
  (forall k l, Permutation (permutation k l) l) ->
  (forall k l, Permutation (shuffle k l) l) ->
  length y = n w -> (2 <= n w)%nat ->
  fst (computeLocalG y t P star w) = w.
Proof.
  intros Hp Hs H Hn.
  destruct (LFacts.local_init_ok sqrt norm_cdf permutation shuffle Hp Hs y t P star w H Hn) as [o [Ho _]].
  now rewrite Ho.
Qed.

(** C2 (amended): neither engine rejects an input because n < 4.  For every
    input whose length is the location count of the graph, the global engine
    returns a result, whose EG2 and VG are not finite when n < 4; the local
    engine returns a result whenever n >= 2, so for n = 2 and n = 3; with one
    location and without [star] the local engine raises ZeroDivisionError, from
    the division by N = n - 1 = 0 of its own computation and not from a check
    of the input. *)
Theorem C2_small_n_is_not_rejected y w t P star :
  length y = n w ->
  (forall k, length (permutation_y k y) = length y) ->
  (forall k l, Permutation (permutation k l) l) ->
  (forall k l, Permutation (shuffle k l) l) ->
  (exists o, snd (computeGlobalG y P w) = Ok o
     /\ ((n w < 4)%nat -> G.EG2 (G.mom o) = None /\ G.VG (G.mom o) = None))
  /\ ((2 <= n w)%nat -> exists o, snd (computeLocalG y t P star w) = Ok o)
  /\ (n w = 1%nat -> snd (computeLocalG y t P false w) = Raise ZeroDivisionError).
Proof.
  intros H Hy Hp Hs. split; [|split].
  - destruct (GFacts.init_ok sqrt norm_cdf w_s1 w_s2 permutation_y y P w H Hy)
      as [o [Ho [_ [Hm _]]]].
    exists o. split; [exact Ho|]. intros Hn. rewrite Hm.
    apply GFacts.moments_small_n. now rewrite H.
  - intros Hn.
    destruct (LFacts.local_init_ok sqrt norm_cdf permutation shuffle Hp Hs
                y t P star w H Hn) as [o [Ho _]].
    exists o. now rewrite Ho.
  - intros Hw. rewrite Hw in H.
    unfold G_Local.init, G_Local.calc, G_Local.calc_plain,
      bind, get, put_transform, lift, ret.
    cbn [negb]. rewrite slag_ok by (rewrite H, n_set_transform; now symmetry).
    rewrite H. cbn [Z.of_nat Pos.of_succ_nat Z.sub Z.opp Z.add Z.pos_sub].
    destruct t.
    + assert (HC : G_Local.getCardinalities 1 (set_transform B w) = Ok (cardinalities w))
        by (rewrite <- Hw; apply (LFacts.getCardinalities_ok (set_transform B w))).
      rewrite HC. reflexivity.
    + reflexivity.
Qed.

(** C5: for every run with permutations P > 0, in the global engine and, per
    location, in the local engine, the empirical p-value is
    (min(larger, P - larger) + 1) / (P + 1), where larger counts the simulated
    values that are >= the observed statistic; it lies in [1/(P+1), 1]. *)
Theorem C5_empirical_p_value y w t P star :
  length y = n w -> (2 <= n w)%nat -> (0 < P)%nat ->
  (forall k, length (permutation_y k y) = length y) ->
  (forall k l, Permutation (permutation k l) l) ->
  (forall k l, Permutation (shuffle k l) l) ->
  (exists o s,
     snd (computeGlobalG y P w) = Ok o
     /\ G.simulation o = Some s
     /\ length (G.sim s) = P
     /\ let larger := count_true (map (fun v => fge v (G.G o)) (G.sim s)) in
        G.p_sim s = Some (Spec.p_value larger P)
        /\ 1 / (N2Qc P + 1) <= Spec.p_value larger P
        /\ Spec.p_value larger P <= 1)
  /\ (exists o s,
        snd (computeLocalG y t P star w) = Ok o
        /\ G_Local.simulation o = Some s
        /\ length (G_Local.p_sim s) = n w
        /\ forall i, (i < n w)%nat ->
             let sims := nth i (G_Local.rGs s) [] in
             let larger :=
               count_true
                 (map (fun v => fge v (nth i (G_Local.Gs (G_Local.stat o)) None)) sims) in
             length sims = P
             /\ nth i (G_Local.p_sim s) None = Some (Spec.p_value larger P)
             /\ 1 / (N2Qc P + 1) <= Spec.p_value larger P
             /\ Spec.p_value larger P <= 1).
Proof.
  intros H Hn HP Hy Hp Hs. destruct P as [|P]; [lia|]. split.
  - destruct (GFacts.init_ok sqrt norm_cdf w_s1 w_s2 permutation_y y (S P) w H Hy)
      as [o [Ho [_ [_ [_ [_ [s [Hsim Es]]]]]]]].
    destruct (GFacts.simulate_p_sim _ _ _ _ _ _ _ _ Es) as [Hl Hps].
    exists o, s. split; [exact Ho|]. split; [exact Hsim|]. split; [exact Hl|].
    cbv zeta. split; [exact Hps|].
    apply p_value_bounds.
    pose proof (count_true_bounds (map (fun v => fge v (G.G o)) (G.sim s))) as Hb.
    rewrite length_map, Hl in Hb. exact Hb.
  - destruct (LFacts.local_init_ok sqrt norm_cdf permutation shuffle Hp Hs y t (S P) star w H Hn)
      as [o [Ho [Hys [HG [s [Hsim Es]]]]]].
    destruct (LFacts.local_simulate_ok sqrt norm_cdf permutation shuffle Hp Hs y w t star (S P)
                (G_Local.stat o) H Hys HG)
      as [s' [Es' [Hr [_ [Hps _]]]]].
    rewrite Es in Es'. injection Es' as <-.
    destruct (@LFacts.crand_shape permutation shuffle Hp Hs _ _ _ _ _ _ H Hr)
      as [_ Hcols].
    exists o, s. split; [now rewrite Ho|]. split; [exact Hsim|].
    split; [now rewrite Hps, length_map, length_seq|].
    intros i Hi. cbv zeta.
    split; [now apply Hcols|].
    split; [rewrite Hps; now rewrite nth_map_seq by exact Hi|].
    apply p_value_bounds.
    pose proof (count_true_bounds
                  (map (fun v => fge v (nth i (G_Local.Gs (G_Local.stat o)) None))
                       (nth i (G_Local.rGs s) []))) as Hb.
    rewrite length_map, (Hcols i Hi) in Hb. exact Hb.
Qed.

End Both.
End Engines.

(** ** The engines on concrete inputs *)

Module Runs.
Import Num Float Weights St Sample.
Local Open Scope Qc_scope.

Lemma rev_ix_perm : forall k l, Permutation (rev_ix k l) l.
Proof.
  intros k l. unfold rev_ix. apply Permutation_sym, Permutation_rev.
Defined.

Lemma rev_y_length : forall y k, length (rev_y k y) = length y.
Proof.
  intros y k. unfold rev_y. apply length_rev.
Defined.

(** The value of the docstring: G = 883/1585, about 0.557. *)
Example docstring_G :
  match snd (run_G y6 0 (w6 B)) with
  | Ok o => frac (G.G o)
  | Raise _ => None
  end = Some (883 # 1585)%Q.
Proof. vm_compute. reflexivity. Qed.

(** The global engine called on a row-standardized graph leaves it binary;
    the local engine hands it back row-standardized. *)
Example global_engine_changes_mode :
  transform (w6 R) = R /\ transform (fst (run_G y6 0 (w6 R))) = B.
Proof. split; vm_compute; reflexivity. Qed.

Example local_engine_keeps_mode :
  transform (fst (run_G_Local y6 B 2 true (w6 R))) = R.
Proof. vm_compute. reflexivity. Qed.

(** Three locations: both engines return; EG2 and VG of the global engine
    are not finite. *)
Example three_locations_moments :
  match snd (run_G y3 0 (w3 B)) with
  | Ok o => (frac (G.EG (G.mom o)), frac (G.EG2 (G.mom o)), frac (G.VG (G.mom o)))
  | Raise _ => (None, None, None)
  end = (Some (2 # 3)%Q, None, None).
Proof. vm_compute. reflexivity. Qed.

(** C2, counterexample: an input with n = 3 < 4 (and a matching length) on
    which neither engine fails. *)
Lemma C2_counterexample_three_locations :
  Spec.invalid_input y3 (w3 R)
  /\ ~ Spec.fails (snd (run_G y3 0 (w3 R)))
  /\ ~ Spec.fails (snd (run_G_Local y3 R 0 false (w3 R))).
Proof.
  split; [right; vm_compute; lia|]. split.
  - destruct (GFacts.init_ok sqrt0 cdf0 s1_0 s2_0 rev_y y3 0 (w3 R) eq_refl
                (rev_y_length y3)) as [o [Ho _]].
    unfold run_G. rewrite Ho. intros [e He]. discriminate.
  - assert (Hn : (2 <= n (w3 R))%nat) by (vm_compute; lia).
    destruct (LFacts.local_init_ok sqrt0 cdf0 rev_ix rev_ix rev_ix_perm rev_ix_perm
                y3 R 0 false (w3 R) eq_refl Hn) as [o [Ho _]].
    unfold run_G_Local. rewrite Ho. intros [e He]. discriminate.
Qed.

(** C3, counterexample: with n = 4 a position row drawn by the code holds the
    position 2 = n - 2, so it is not a truncated permutation of [0, n-2). *)
Lemma C3_counterexample_position_range :
  Permutation (rev_ix 0 (seq 0 (4 - 1))) (seq 0 (4 - 1))
  /\ nth 0 (G_Local.crand_rids rev_ix (length y4) (w4 R) 1) [] = [2; 1; 0]%nat
  /\ ~ Spec.position_row (n (w4 R) - 2) (max_neighbors (w4 R) + 1) [2; 1; 0]%nat.
Proof.
  split; [apply rev_ix_perm|]. split; [reflexivity|].
  intros [p [Hp E]].
  assert (Hin : In 2%nat p).
  { apply (LFacts.in_firstn 2%nat (max_neighbors (w4 R) + 1)). rewrite <- E.
    simpl. auto. }
  apply (Permutation_in _ Hp) in Hin. simpl in Hin. intuition lia.
Qed.

(** C8, counterexample: on the zero vector (a constant vector) the observed
    statistic is 0/0, not finite, while EG = 8/12. *)
Lemma C8_counterexample_zero_vector :
  z4 = repeat (q 0 1) (n (w4 B))
  /\ (4 <= n (w4 B))%nat
  /\ exists o, snd (run_G z4 0 (w4 B)) = Ok o
       /\ G.G o = None
       /\ frac (G.EG (G.mom o)) = Some (2 # 3)%Q
       /\ G.G o <> G.EG (G.mom o).
Proof.
  split; [reflexivity|]. split; [vm_compute; lia|].
  destruct (GFacts.init_ok sqrt0 cdf0 s1_0 s2_0 rev_y z4 0 (w4 B) eq_refl
              (rev_y_length z4)) as [o [Ho [HG [Hm _]]]].
  exists o. split; [exact Ho|].
  assert (EG : G.G o = None) by (rewrite HG; vm_compute; reflexivity).
  assert (EE : frac (G.EG (G.mom o)) = Some (2 # 3)%Q)
    by (rewrite Hm; vm_compute; reflexivity).
  split; [exact EG|]. split; [exact EE|].
  rewrite EG. intros E. rewrite <- E in EE. discriminate.
Qed.


(** *** The theorems at concrete inputs *)

Lemma C2_witness :
  ((exists o, snd (run_G y3 0 (w3 R)) = Ok o
      /\ G.EG2 (G.mom o) = None /\ G.VG (G.mom o) = None)
   /\ (exists o, snd (run_G_Local y3 R 0 false (w3 R)) = Ok o))
  /\ snd (run_G_Local y1 R 0 false (w1 R)) = Raise ZeroDivisionError.
Proof.
  unfold run_G, run_G_Local. split.
  - destruct (@Engines.C2_small_n_is_not_rejected sqrt0 cdf0 s1_0 s2_0
                rev_y rev_ix rev_ix y3 (w3 R) R 0%nat false
                eq_refl (rev_y_length y3) rev_ix_perm rev_ix_perm)
      as [[o [Ho Hm]] [Hl _]].
    split.
    + exists o. split; [exact Ho|]. apply Hm. vm_compute. lia.
    + apply Hl. vm_compute. lia.
  - destruct (@Engines.C2_small_n_is_not_rejected sqrt0 cdf0 s1_0 s2_0
                rev_y rev_ix rev_ix y1 (w1 R) R 0%nat false
                eq_refl (rev_y_length y1) rev_ix_perm rev_ix_perm)
      as [_ [_ Hz]].
    apply Hz. reflexivity.
Defined.

Lemma C3_witness :
  exists rGs,
    G_Local.crand rev_ix rev_ix (length y4) y4 (w4 R) R false 2 (vsum y4) = Ok rGs
    /\ length rGs = n (w4 R).
Proof.
  pose proof (@LFacts.C3_conditional_permutation rev_ix rev_ix rev_ix_perm rev_ix_perm
                y4 (w4 R) R false 2%nat eq_refl ltac:(vm_compute; lia)) as W.
  cbv zeta in W. destruct W as [_ [_ [_ [rGs [E [Hl _]]]]]].
  exists rGs. split; assumption.
Defined.

Lemma C4_witness :
  exists o, snd (run_G y6 0 (w6 R)) = Ok o
    /\ G.G o = Spec.G_obs (set_transform B (w6 R)) y6.
Proof.
  pose proof (@GFacts.C4_observed_global_G sqrt0 cdf0 s1_0 s2_0 rev_y
                y6 0%nat (w6 R) eq_refl (rev_y_length y6)) as W.
  cbv zeta in W. destruct W as [o [Ho [_ [HG _]]]].
  exists o. split; assumption.
Defined.

Lemma C5_witness :
  (exists o s, snd (run_G y4 2 (w4 R)) = Ok o
     /\ G.simulation o = Some s /\ length (G.sim s) = 2%nat)
  /\ (exists o s, snd (run_G_Local y4 R 2 false (w4 R)) = Ok o
        /\ G_Local.simulation o = Some s /\ length (G_Local.p_sim s) = n (w4 R)).
Proof.
  pose proof (@Engines.C5_empirical_p_value sqrt0 cdf0 s1_0 s2_0 rev_y rev_ix rev_ix
                y4 (w4 R) R 2%nat false eq_refl
                ltac:(vm_compute; lia) ltac:(lia)
                (rev_y_length y4) rev_ix_perm rev_ix_perm) as W.
  destruct W as [[o [s [Ho [Hs [Hl _]]]]] [o' [s' [Ho' [Hs' [Hl' _]]]]]].
  split.
  - exists o, s. repeat split; assumption.
  - exists o', s'. repeat split; assumption.
Defined.

Lemma C6_witness :
  exists o s, snd (run_G_Local y4 R 2 true (w4 R)) = Ok o
    /\ G_Local.simulation o = Some s
    /\ length (concat (G_Local.sim s)) = 8%nat.
Proof.
  pose proof (@LFacts.C6_pooled_simulation_summary sqrt0 cdf0 rev_ix rev_ix
                rev_ix_perm rev_ix_perm y4 R 2%nat true (w4 R) eq_refl
                ltac:(vm_compute; lia) ltac:(lia)) as W.
  destruct W as [o [s [Ho [Hs [Hl _]]]]].
  exists o, s. repeat split; assumption.
Defined.

Lemma C7_witness :
  exists o, snd (run_G y4 0 (w4 R)) = Ok o
    /\ G.EG (G.mom o) = Some (Spec.EG (N2Qc 4) (s0 (set_transform B (w4 R)))).
Proof.
  pose proof (@GFacts.C7_analytic_moments sqrt0 cdf0 s1_0 s2_0 rev_y
                y4 0%nat (w4 R) eq_refl (rev_y_length y4)
                ltac:(vm_compute; lia)) as W.
  cbv zeta in W. destruct W as [o [Ho [HE _]]].
  exists o. split; assumption.
Defined.

Lemma C8_witness :
  exists o, snd (run_G (repeat (q 5 1) 4) 0 (w4 R)) = Ok o
    /\ G.G o = G.EG (G.mom o).
Proof.
  pose proof (@GFacts.C8_constant_vector_nonzero sqrt0 cdf0 s1_0 s2_0 rev_y
                (q 5 1) 0%nat (w4 R)
                ltac:(intros E; discriminate E)
                ltac:(vm_compute; lia)
                (fun k => rev_y_length (repeat (q 5 1) 4) k)) as W.
  destruct W as [o [Ho [HG _]]].
  exists o. split; assumption.
Defined.

Lemma C9_witness :
  exists c c',
    snd (G_Local.calc sqrt0 (length y4) y4 R true R (w4 R)) = Ok c
    /\ snd (G_Local.calc sqrt0 (length (vscale (q 3 1) y4)) (vscale (q 3 1) y4)
              R true R (w4 R)) = Ok c'
    /\ G_Local.Gs c' = G_Local.Gs c.
Proof.
  pose proof (@LFacts.C9_local_Gstar_scale_invariant sqrt0 cdf0 y4 R R (w4 R) (q 3 1)
                eq_refl ltac:(vm_compute; lia) eq_refl) as W.
  destruct W as [c [c' [Hc [Hc' [_ HG]]]]].
  exists c, c'. rewrite Hc, Hc'. split; [reflexivity|]. split; [reflexivity|exact HG].
Defined.

Lemma C10_witness :
  exists rGs,
    G_Local.crand rev_ix rev_ix (length y4) y4 (w4 B) B true 3 (vsum y4) = Ok rGs.
Proof.
  pose proof (@LFacts.C10_crand_in_bounds rev_ix rev_ix rev_ix_perm rev_ix_perm
                y4 (w4 B) B true 3%nat eq_refl ltac:(vm_compute; lia)) as W.
  cbv zeta in W. destruct W as [_ [_ [_ [Hex _]]]].
  - intros c Hc. vm_compute in Hc. vm_compute.
    repeat (destruct Hc as [<-|Hc]; [lia|]). contradiction.
  - exact Hex.
Defined.

End Runs.

(** ** Further properties of the global engine *)

Module GExtra.
Import Num Float Weights St NumFacts VecFacts ResFacts TailFacts.
Local Open Scope Qc_scope.

Lemma fdiv_cancel a x s :
  a <> 0 -> fdiv (fin (a * x)) (fin (a * s)) = fdiv (fin x) (fin s).
Proof.
  intros Ha. destruct (Qc_eq_dec s 0) as [->|Hs].
  - replace (a * 0) with 0 by ring. reflexivity.
  - rewrite (fdiv_fin _ Hs), (fdiv_fin _ (Qcmult_neq0 Ha Hs)).
    f_equal. field. split; assumption.
Qed.

Lemma vsum_perm l l' : Permutation l l' -> vsum l = vsum l'.
Proof.
  induction 1; simpl; try congruence; ring.
Qed.

Lemma vmul_scale a u v : vmul (vscale a u) (vscale a v) = vscale (a * a) (vmul u v).
Proof.
  unfold vmul, vscale. revert v.
  induction u as [|x u IH]; intros [|z v]; simpl; try reflexivity.
  rewrite IH. f_equal. ring.
Qed.

Lemma vsum_sq_scale a y :
  vsum (map (fun v => v * v) (vscale a y)) = a * a * vsum (map (fun v => v * v) y).
Proof.
  unfold vscale. rewrite map_map, <- vsum_map_scale.
  apply vsum_map_ext. intros; ring.
Qed.

Lemma vsum_cube_scale a y :
  vsum (map (fun v => v * v * v) (vscale a y))
  = a * a * a * vsum (map (fun v => v * v * v) y).
Proof.
  unfold vscale. rewrite map_map, <- vsum_map_scale.
  apply vsum_map_ext. intros; ring.
Qed.

Lemma vsum_quad_scale a y :
  vsum (map (fun v => v * v * v * v) (vscale a y))
  = a * a * a * a * vsum (map (fun v => v * v * v * v) y).
Proof.
  unfold vscale. rewrite map_map, <- vsum_map_scale.
  apply vsum_map_ext. intros; ring.
Qed.

Lemma vscale_length a y : length (vscale a y) = length y.
Proof. unfold vscale. apply length_map. Qed.

Lemma G_den_scale a y : Spec.G_den (vscale a y) = a * a * Spec.G_den y.
Proof.
  unfold Spec.G_den. rewrite vsum_sq_scale, vsum_scale. ring.
Qed.

Lemma G_den_perm y y' : Permutation y y' -> Spec.G_den y = Spec.G_den y'.
Proof.
  intros H. unfold Spec.G_den.
  rewrite (vsum_perm H).
  now rewrite (vsum_perm (Permutation_map (fun v => v * v) H)).
Qed.

Section Global.
Variable sqrt : Qc -> float.
Variable norm_cdf : Qc -> Qc.
Variables w_s1 w_s2 : W -> Qc.
Variable permutation : nat -> list Qc -> list Qc.

Local Abbreviation init := (G.init sqrt norm_cdf w_s1 w_s2 permutation).
Local Abbreviation simulate := (G.simulate sqrt norm_cdf permutation).
Local Abbreviation moments := (G.moments w_s1 w_s2).

(** The analytic fields of a constructed [G]. *)
Lemma init_analytic y P w :
  length y = n w ->
  (forall k, length (permutation k y) = length y) ->
  let wB := set_transform B w in
  exists o, snd (init y P w) = Ok o
    /\ G.n o = length y /\ G.y o = y /\ G.permutations o = P
    /\ G.G o = G.G_of wB (G.den_of y) y
    /\ G.mom o = moments y (Z.of_nat (length y)) wB
    /\ G.z_norm o
       = fdiv (fsub (G.G o) (G.EG (G.mom o))) (G.fsqrt sqrt (G.VG (G.mom o)))
    /\ G.p_norm o = G.norm_tail norm_cdf (G.z_norm o)
    /\ (P = 0%nat -> G.simulation o = None)
    /\ (P <> 0%nat -> exists s, G.simulation o = Some s
          /\ simulate wB y (G.den_of y) (G.G o) P = Ok s).
Proof.
  intros H Hp wB. unfold G.init, bind, put_transform, get, lift, ret.
  fold wB. fold (G.den_of y).
  rewrite GFacts.calc_ok by exact H.
  destruct P as [|P].
  - eexists. split; [reflexivity|]. cbn.
    repeat (split; [reflexivity|]).
    intros E. exfalso. now apply E.
  - destruct (@GFacts.simulate_ok sqrt norm_cdf permutation wB y (G.den_of y)
                (G.G_of wB (G.den_of y) y) (S P)) as [s [Hs _]].
    { intros k. rewrite Hp. exact H. }
    rewrite Hs. eexists. split; [reflexivity|]. cbn.
    repeat (split; [reflexivity|]). split; [discriminate|].
    intros _. exists s. split; [reflexivity|exact Hs].
Qed.


(** *** Scaling the vector *)

Lemma moments_eta (m : G.moments_t) :
  m = G.mkMoments (G.EG m) (G.EG2 m) (G.VG m) (G.b0 m) (G.b1 m) (G.b2 m)
                  (G.b3 m) (G.b4 m).
Proof. destruct m; reflexivity. Qed.

Lemma pow4_neq0 a : a <> 0 -> a * a * a * a <> 0.
Proof.
  intros Ha. repeat apply Qcmult_neq0; exact Ha.
Qed.

Lemma EG2_num_scale nq s0 s1 s2 a y :
  Spec.EG2_num nq s0 s1 s2 (vscale a y)
  = a * a * a * a * Spec.EG2_num nq s0 s1 s2 y.
Proof.
  unfold Spec.EG2_num.
  rewrite vsum_scale, vsum_sq_scale, vsum_cube_scale, vsum_quad_scale. ring.
Qed.

Lemma EG2_den_scale nq a y :
  Spec.EG2_den nq (vscale a y) = a * a * a * a * Spec.EG2_den nq y.
Proof.
  unfold Spec.EG2_den. rewrite vsum_scale, vsum_sq_scale. ring.
Qed.

Lemma moments_scale a y w :
  a <> 0 ->
  moments (vscale a y) (Z.of_nat (length (vscale a y))) w
  = moments y (Z.of_nat (length y)) w.
Proof.
  intros Ha. rewrite vscale_length.
  destruct (@GFacts.moments_spec w_s1 w_s2 (vscale a y) (Z.of_nat (length y)) w)
    as [E0 [E1 [E2 [E3 [E4 [E5 [E6 E7]]]]]]].
  destruct (@GFacts.moments_spec w_s1 w_s2 y (Z.of_nat (length y)) w)
    as [F0 [F1 [F2 [F3 [F4 [F5 [F6 F7]]]]]]].
  rewrite EG2_num_scale, EG2_den_scale in E6.
  rewrite (@fdiv_cancel _ _ _ (pow4_neq0 Ha)), <- F6 in E6.
  rewrite E6, E0, <- F0, <- F7 in E7.
  rewrite (moments_eta (moments (vscale a y) _ w)), (moments_eta (moments y _ w)).
  congruence.
Qed.

Lemma G_of_scale a y w :
  a <> 0 ->
  G.G_of w (G.den_of (vscale a y)) (vscale a y) = G.G_of w (G.den_of y) y.
Proof.
  intros Ha. unfold G.G_of.
  rewrite LFacts.lag_scale, vmul_scale, vsum_scale.
  rewrite !GFacts.den_of_spec, G_den_scale.
  apply fdiv_cancel. now apply Qcmult_neq0.
Qed.

(** X2: the observed statistic and the whole analytic inference of the global
    engine do not change when the vector is multiplied by a constant other
    than zero. *)
Theorem global_analytic_scale_invariant y P w a :
  a <> 0 ->
  length y = n w ->
  (forall k, length (permutation k y) = length y) ->
  (forall k, length (permutation k (vscale a y)) = length y) ->
  exists o o',
    snd (init y P w) = Ok o
    /\ snd (init (vscale a y) P w) = Ok o'
    /\ G.G o' = G.G o
    /\ G.mom o' = G.mom o
    /\ G.z_norm o' = G.z_norm o
    /\ G.p_norm o' = G.p_norm o.
Proof.
  intros Ha H Hp Hp'.
  destruct (init_analytic y P w H Hp)
    as [o [Ho [_ [_ [_ [HG [Hm [Hz [Hn _]]]]]]]]].
  destruct (init_analytic (vscale a y) P w)
    as [o' [Ho' [_ [_ [_ [HG' [Hm' [Hz' [Hn' _]]]]]]]]].
  { now rewrite vscale_length. }
  { intros k. now rewrite vscale_length. }
  exists o, o'. split; [exact Ho|]. split; [exact Ho'|].
  assert (EG : G.G o' = G.G o) by (rewrite HG', HG; now apply G_of_scale).
  assert (Em : G.mom o' = G.mom o) by (rewrite Hm', Hm; now apply moments_scale).
  assert (Ez : G.z_norm o' = G.z_norm o) by (rewrite Hz', Hz; now rewrite EG, Em).
  repeat split; try assumption.
  rewrite Hn', Hn. now rewrite Ez.
Qed.

(** *** The simulated values *)

(** X3: every simulated value is the observed-value formula applied to the
    permuted vector: the denominator computed once from y is the one of any
    permutation of y. *)
Theorem global_sim_is_G_of_permuted y P w :
  length y = n w ->
  (forall k, Permutation (permutation k y) y) ->
  P <> 0%nat ->
  exists o s,
    snd (init y P w) = Ok o
    /\ G.simulation o = Some s
    /\ length (G.sim s) = P
    /\ forall k, (k < P)%nat ->
         nth k (G.sim s) None = Spec.G_obs (set_transform B w) (permutation k y).
Proof.
  intros H Hperm HP.
  assert (Hp : forall k, length (permutation k y) = length y)
    by (intros k; apply Permutation_length, Hperm).
  destruct (init_analytic y P w H Hp)
    as [o [Ho [_ [_ [_ [HG [_ [_ [_ [_ Hs]]]]]]]]]].
  destruct (Hs HP) as [s [Hsim Es]].
  destruct (@GFacts.simulate_ok sqrt norm_cdf permutation (set_transform B w) y
              (G.den_of y) (G.G o) P) as [s' [Es' Hv]].
  { intros k. rewrite Hp. exact H. }
  rewrite Es in Es'. injection Es' as <-.
  exists o, s. split; [exact Ho|]. split; [exact Hsim|].
  split; [now rewrite Hv, length_map, length_seq|].
  intros k Hk. rewrite Hv, nth_map_seq by exact Hk.
  rewrite GFacts.den_of_spec, <- (G_den_perm (Hperm k)), <- GFacts.den_of_spec.
  apply GFacts.G_of_spec. rewrite Hp. exact H.
Qed.

(** *** The recorded tail count *)

Lemma simulate_larger w y den g P s :
  simulate w y den g P = Ok s ->
  let l := count_true (map (fun v => fge v g) (G.sim s)) in
  length (G.sim s) = P
  /\ G.larger s = Z.min l (Z.of_nat P - l)
  /\ G.p_sim s = Some ((Z2Qc (G.larger s) + 1) / (N2Qc P + 1)).
Proof.
  unfold G.simulate. destruct (mapM _ _) as [sims|] eqn:E; simpl; [|discriminate].
  intros [= <-]. cbn [G.sim G.p_sim G.larger]. split.
  - rewrite (mapM_length _ _ E). apply length_seq.
  - rewrite tail_rule_min. split; [reflexivity|].
    apply fdiv_fin, N2Qc_succ_neq0.
Qed.

Lemma folded_p_bound m P :
  (0 <= 2 * m <= Z.of_nat P)%Z ->
  Z2Qc 2 * ((Z2Qc m + 1) / (N2Qc P + 1)) <= 1 + 1 / (N2Qc P + 1).
Proof.
  intros Hm.
  assert (HD : N2Qc P + 1 <> 0) by apply N2Qc_succ_neq0.
  replace (Z2Qc 2 * ((Z2Qc m + 1) / (N2Qc P + 1)))
    with (Z2Qc (2 * m + 2) / (N2Qc P + 1)).
  2:{ rewrite Z2Qc_add, Z2Qc_mul.
      replace (Z2Qc 2) with (1 + 1) by (apply Qc_is_canon; reflexivity).
      field. exact HD. }
  replace (1 + 1 / (N2Qc P + 1)) with (Z2Qc (Z.of_nat P + 2) / (N2Qc P + 1)).
  2:{ rewrite Z2Qc_add. fold (N2Qc P).
      replace (Z2Qc 2) with (1 + 1) by (apply Qc_is_canon; reflexivity).
      field. exact HD. }
  apply Qcdiv_le_compat.
  - rewrite <- N2Qc_S. apply N2Qc_nonneg.
  - apply Z2Qc_le. lia.
Qed.

End Global.
End GExtra.

(** ** Further properties of the local engine *)

Module LExtra.
Import Num Float Weights St NumFacts VecFacts ResFacts TailFacts.
Local Open Scope Qc_scope.

Lemma bcast2_length f u b :
  length (G_Local.bcast2 f u b)
  = match b with
    | Scalar _ => length u
    | Vec v => Nat.min (length u) (length v)
    end.
Proof.
  destruct b; simpl; [apply length_map|apply LFacts.fmap2_length].
Qed.

Lemma vmul_length a b : length (vmul a b) = Nat.min (length a) (length b).
Proof.
  unfold vmul. now rewrite length_map, length_combine.
Qed.

Lemma cardinalities_length w : length (cardinalities w) = n w.
Proof. unfold cardinalities. apply length_map. Qed.

Lemma fdiv_swap a d S :
  d <> 0 ->
  fdiv (fdiv (fin a) (fin d)) (fin S) = fdiv (fdiv (fin a) (fin S)) (fin d).
Proof.
  intros Hd. rewrite (fdiv_fin _ Hd).
  destruct (Qc_eq_dec S 0) as [->|HS].
  - reflexivity.
  - rewrite (fdiv_fin a HS). change (Some (a / d)) with (fin (a / d)).
    change (Some (a / S)) with (fin (a / S)).
    rewrite (fdiv_fin _ HS), (fdiv_fin _ Hd). f_equal. field. split; assumption.
Qed.

Section Local.
Variable sqrt : Qc -> float.
Variable norm_cdf : Qc -> Qc.
Variable permutation : nat -> list nat -> list nat.
Variable shuffle : nat -> list nat -> list nat.

Local Abbreviation init := (G_Local.init sqrt norm_cdf permutation shuffle).
Local Abbreviation calc := (G_Local.calc sqrt).
Local Abbreviation simulate := (G_Local.simulate sqrt norm_cdf permutation shuffle).

Ltac lengths :=
  repeat (rewrite ?bcast2_length, ?LFacts.fmap2_length, ?LFacts.vadd_length,
            ?vmul_length, ?length_map, ?length_seq, ?cardinalities_length);
  cbn [nd_map nd_map2];
  repeat (rewrite ?bcast2_length, ?LFacts.fmap2_length, ?LFacts.vadd_length,
            ?vmul_length, ?length_map, ?length_seq, ?cardinalities_length).

(** The fields computed by [calc] without [star]. *)
Lemma calc_plain_fields y t wo w :
  length y = n w -> length y <> 1%nat ->
  let N := (Z.of_nat (length y) - 1)%Z in
  exists c, calc (length y) y t false wo w = (set_transform wo w, Ok c)
    /\ G_Local.y_sum c = vsum y
    /\ G_Local.Gs c
       = fmap2 fdiv (fins (map (lag_at w y) (seq 0 (n w))))
                    (fins (map (fun yi => vsum y - yi) y))
    /\ G_Local.EGs c
       = match t with
         | R => Scalar (fin (1 / Z2Qc N))
         | B => Vec (map (fun k => fdiv (fin (N2Qc k + 0)) (finZ N)) (cardinalities w))
         end
    /\ length (G_Local.Zs c) = n w.
Proof.
  intros H Hn N.
  unfold G_Local.calc, G_Local.calc_plain, bind, put_transform, get, lift, ret.
  cbn [negb]. rewrite slag_ok by exact H. fold N.
  assert (HN : N <> 0%Z) by (subst N; lia).
  assert (HN2 : (N * N)%Z <> 0%Z) by nia.
  assert (HC : G_Local.getCardinalities (length y) w = Ok (cardinalities w))
    by (rewrite H; apply LFacts.getCardinalities_ok).
  destruct t; rewrite ?HC, ?(LFacts.pydiv_ok _ HN), ?(LFacts.pydiv_ok _ HN2);
    (eexists; split; [reflexivity|]; cbn [G_Local.y_sum G_Local.Gs G_Local.EGs G_Local.Zs];
     split; [reflexivity|]; split; [reflexivity|]; split;
     [unfold fins; rewrite ?map_map; reflexivity|]).
  - lengths. unfold fins. lengths. lia.
  - lengths. unfold fins. lengths. lia.
Qed.

(** The fields computed by [calc] with [star]. *)
Lemma calc_star_fields y t wo w :
  length y = n w -> length y <> 0%nat ->
  let N := Z.of_nat (length y) in
  let wB := set_transform B w in
  let yl := vadd (map (lag_at wB y) (seq 0 (n w))) y in
  exists c, calc (length y) y t true wo w = (set_transform wo w, Ok c)
    /\ G_Local.y_sum c = vsum y
    /\ G_Local.Gs c
       = map (fun v => fdiv v (fin (vsum y)))
           match t with
           | R => fmap2 fdiv (fins yl) (map (fun c => fin (N2Qc c + 1)) (cardinalities w))
           | B => fins yl
           end
    /\ G_Local.EGs c
       = match t with
         | R => Scalar (fin (1 / Z2Qc N))
         | B => Vec (map (fun k => fdiv (fin (N2Qc k + 1)) (finZ N)) (cardinalities w))
         end
    /\ length (G_Local.Zs c) = n w.
Proof.
  intros H Hn N wB yl.
  unfold G_Local.calc, G_Local.calc_star, bind, put_transform, get, lift, ret.
  cbn [negb]. rewrite slag_ok by exact H.
  rewrite (n_set_transform B w). fold wB. fold yl. fold N.
  assert (HN : N <> 0%Z) by (subst N; lia).
  assert (HN2 : (N * N)%Z <> 0%Z) by nia.
  assert (HC : G_Local.getCardinalities (length y) wB = Ok (cardinalities w))
    by (rewrite H; apply (LFacts.getCardinalities_ok wB)).
  assert (Hyl : length yl = n w).
  { subst yl. rewrite LFacts.vadd_length, length_map, length_seq. lia. }
  destruct t; rewrite ?HC, ?(LFacts.pydiv_ok _ HN), ?(LFacts.pydiv_ok _ HN2);
    (eexists; split; [reflexivity|]; cbn [G_Local.y_sum G_Local.Gs G_Local.EGs G_Local.Zs];
     split; [reflexivity|]; split; [reflexivity|]; split;
     [unfold fins; rewrite ?map_map; reflexivity|]).
  - lengths. unfold fins. lengths. rewrite Hyl. lia.
  - lengths. unfold fins. lengths. rewrite Hyl. lia.
Qed.


(** *** The graph after a call *)

Ltac run_calc :=
  repeat (match goal with
          | |- context [slag ?a ?b] => destruct (slag a b)
          | |- context [G_Local.getCardinalities ?a ?b] =>
              destruct (G_Local.getCardinalities a b)
          | |- context [G_Local.pydiv ?a ?b] => destruct (G_Local.pydiv a b)
          end; cbn [fst snd]).

Lemma calc_state n0 y t star wo w c :
  snd (calc n0 y t star wo w) = Ok c ->
  fst (calc n0 y t star wo w) = set_transform wo w.
Proof.
  unfold G_Local.calc, G_Local.calc_plain, G_Local.calc_star,
    bind, put_transform, get, lift, ret.
  destruct star, t; cbn [negb]; run_calc; intros E;
    try discriminate E; reflexivity.
Qed.

Lemma calc_failure_state n0 y t star wo w e :
  snd (calc n0 y t star wo w) = Raise e ->
  fst (calc n0 y t star wo w) = if star then set_transform B w else w.
Proof.
  unfold G_Local.calc, G_Local.calc_plain, G_Local.calc_star,
    bind, put_transform, get, lift, ret.
  destruct star, t; cbn [negb]; run_calc; intros E;
    try discriminate E; reflexivity.
Qed.

(** X9: every call of the local engine that returns hands the graph back as it
    received it, and records the caller's mode in [w_original]. *)
Theorem local_success_restores_graph y t P star w o :
  snd (init y t P star w) = Ok o ->
  fst (init y t P star w) = w /\ G_Local.w_original o = transform w.
Proof.
  unfold G_Local.init, bind, get, put_transform, lift, ret.
  destruct (calc (length y) y t star (transform w) (set_transform t w))
    as [w1 [c|e]] eqn:Ec; [|discriminate].
  assert (Hw : w1 = w).
  { pose proof (@calc_state (length y) y t star (transform w) (set_transform t w) c) as Hs.
    rewrite Ec in Hs. cbn [fst snd] in Hs. rewrite Hs by reflexivity.
    apply LFacts.set_transform_restore. }
  subst w1. destruct P as [|P].
  - cbn [fst snd]. intros [= <-]. split; reflexivity.
  - destruct (simulate (length y) y w t star (S P) c) as [s|e]; [|discriminate].
    cbn [fst snd]. intros [= <-]. split; reflexivity.
Qed.

(** X10: whenever the computation of the statistic raises, the call of the
    local engine raises the same error, whatever the permutation count is, and
    the graph is not restored: it is left binary with [star], in the requested
    transform without. *)
Theorem local_failure_leaves_graph_modified y t P star w e :
  snd (calc (length y) y t star (transform w) (set_transform t w)) = Raise e ->
  snd (init y t P star w) = Raise e
  /\ fst (init y t P star w) = set_transform (if star then B else t) w.
Proof.
  intros Em.
  pose proof (@calc_failure_state (length y) y t star (transform w)
                (set_transform t w) e Em) as Hs.
  unfold G_Local.init, bind, get, put_transform, lift, ret.
  destruct (calc (length y) y t star (transform w) (set_transform t w))
    as [w1 [c|e']]; cbn [fst snd] in Em, Hs; [discriminate|].
  injection Em as ->. split; [reflexivity|]. cbn [fst].
  rewrite Hs. destruct star; reflexivity.
Qed.

(** X11: one location, without [star]: N = n - 1 = 0 and the Python division
    [1.0 / (N ** 2)] raises; the graph stays in the requested transform. *)
Theorem local_single_location_raises y t P w :
  length y = 1%nat -> n w = 1%nat ->
  snd (init y t P false w) = Raise ZeroDivisionError
  /\ fst (init y t P false w) = set_transform t w.
Proof.
  intros Hy Hw.
  unfold G_Local.init, G_Local.calc, G_Local.calc_plain,
    bind, get, put_transform, lift, ret.
  cbn [negb]. rewrite slag_ok by (rewrite Hy, n_set_transform; now symmetry).
  rewrite Hy. cbn [Z.of_nat Pos.of_succ_nat Z.sub Z.opp Z.add Z.pos_sub].
  destruct t.
  - assert (HC : G_Local.getCardinalities 1 (set_transform B w) = Ok (cardinalities w))
      by (rewrite <- Hw; apply (LFacts.getCardinalities_ok (set_transform B w))).
    rewrite HC. split; reflexivity.
  - split; reflexivity.
Qed.


(** *** The observed statistic and its expectation *)

Lemma nth_vadd a b i :
  length a = length b -> (i < length a)%nat ->
  nth i (vadd a b) 0 = nth i a 0 + nth i b 0.
Proof.
  intros Hab Hi. unfold vadd.
  now rewrite (@LFacts.nth_map_combine Qc Qc Qc (fun p => fst p + snd p)
                 a b i 0 0 0 Hab Hi).
Qed.

Lemma nth_fmap2 f a b i :
  length a = length b -> (i < length a)%nat ->
  nth i (fmap2 f a b) None = f (nth i a None) (nth i b None).
Proof.
  intros Hab Hi. unfold fmap2.
  now rewrite (@LFacts.nth_map_combine float float float
                 (fun p => f (fst p) (snd p)) a b i None None None Hab Hi).
Qed.

Lemma nth_fins l i : (i < length l)%nat -> nth i (fins l) None = fin (nth i l 0).
Proof.
  intros Hi. unfold fins.
  now rewrite (@LFacts.nth_map_in Qc float fin l i 0 None Hi).
Qed.

Section Draws.
Hypothesis permutation_perm : forall k l, Permutation (permutation k l) l.
Hypothesis shuffle_perm : forall k l, Permutation (shuffle k l) l.

(** A constructed [G_Local], for a vector of the graph's length and n >= 2. *)
Lemma init_fields y t P star w :
  length y = n w -> (2 <= n w)%nat ->
  exists o,
    init y t P star w = (w, Ok o)
    /\ calc (length y) y t star (transform w) (set_transform t w)
       = (w, Ok (G_Local.stat o))
    /\ G_Local.n o = length y
    /\ G_Local.permutations o = P
    /\ G_Local.p_norm o = map (G_Local.norm_tail norm_cdf) (G_Local.Zs (G_Local.stat o))
    /\ (P = 0%nat -> G_Local.simulation o = None)
    /\ (P <> 0%nat ->
        exists s, G_Local.simulation o = Some s
          /\ simulate (length y) y w t star P (G_Local.stat o) = Ok s).
Proof.
  intros H Hn. unfold G_Local.init, bind, get, put_transform, lift, ret.
  destruct (@LFacts.local_calc_ok sqrt y t star (transform w) (set_transform t w) H Hn)
    as [c [Hc [Hs HG]]].
  rewrite LFacts.set_transform_restore in Hc. rewrite Hc.
  destruct P as [|P].
  - eexists. split; [reflexivity|]. cbn.
    repeat (split; [reflexivity|]).
    intros E. exfalso. now apply E.
  - destruct (@LFacts.local_simulate_ok sqrt norm_cdf permutation shuffle
                permutation_perm shuffle_perm y w t star (S P) c H Hs HG)
      as [s [Es _]].
    rewrite Es. eexists. split; [reflexivity|]. cbn.
    repeat (split; [reflexivity|]). split; [discriminate|].
    intros _. exists s. split; [reflexivity|exact Es].
Qed.

(** The statistic computed for a valid input, by cases on [star]. *)
Lemma init_calc_cases y t P star w :
  length y = n w -> (2 <= n w)%nat ->
  exists o, snd (init y t P star w) = Ok o
    /\ G_Local.Gs (G_Local.stat o)
       = (if star then
            map (fun v => fdiv v (fin (vsum y)))
              match t with
              | R => fmap2 fdiv
                       (fins (vadd (map (lag_at (set_transform B w) y) (seq 0 (n w))) y))
                       (map (fun c => fin (N2Qc c + 1)) (cardinalities w))
              | B => fins (vadd (map (lag_at (set_transform B w) y) (seq 0 (n w))) y)
              end
          else
            fmap2 fdiv (fins (map (lag_at (set_transform t w) y) (seq 0 (n w))))
                       (fins (map (fun yi => vsum y - yi) y)))
    /\ G_Local.EGs (G_Local.stat o)
       = (let N := (Z.of_nat (length y) - if star then 0 else 1)%Z in
          match t with
          | R => Scalar (fin (1 / Z2Qc N))
          | B => Vec (map (fun k => fdiv (fin (N2Qc k + b2q star)) (finZ N))
                          (cardinalities w))
          end)
    /\ length (G_Local.Zs (G_Local.stat o)) = n w
    /\ length (G_Local.p_norm o) = n w.
Proof.
  intros H Hn.
  destruct (init_fields y t P star w H Hn) as [o [Ho [Hc [_ [_ [Hp _]]]]]].
  exists o. split; [now rewrite Ho|].
  destruct star.
  - destruct (@calc_star_fields y t (transform w) (set_transform t w) H)
      as [c [Ec [_ [HG [HE HZ]]]]]; [lia|].
    rewrite LFacts.set_transform_restore in Ec. rewrite Hc in Ec.
    injection Ec as <-.
    split; [exact HG|]. split.
    + rewrite HE. cbv zeta. now rewrite Z.sub_0_r.
    + split; [exact HZ|]. now rewrite Hp, length_map.
  - destruct (@calc_plain_fields y t (transform w) (set_transform t w) H)
      as [c [Ec [_ [HG [HE HZ]]]]]; [lia|].
    rewrite LFacts.set_transform_restore in Ec. rewrite Hc in Ec.
    injection Ec as <-.
    split; [exact HG|]. split; [exact HE|].
    split; [exact HZ|]. now rewrite Hp, length_map.
Qed.

(** X5: without [star] the observed statistic at i is the spatial lag at i, under
    the requested transform, over (sum y - y_i); with [star] it is the binary
    lag plus y_i, divided by cardinality_i + 1 when the requested transform
    is row-standardized, over sum y. *)
Theorem local_observed_statistic y t P star w :
  length y = n w -> (2 <= n w)%nat ->
  exists o, snd (init y t P star w) = Ok o
    /\ length (G_Local.statistic o) = n w
    /\ forall i, (i < n w)%nat ->
         nth i (G_Local.statistic o) None
         = if star then
             fdiv match t with
                  | R => fdiv (fin (lag_at (set_transform B w) y i + nth i y 0))
                              (fin (N2Qc (nth i (cardinalities w) 0%nat) + 1))
                  | B => fin (lag_at (set_transform B w) y i + nth i y 0)
                  end
                  (fin (vsum y))
           else fdiv (fin (lag_at (set_transform t w) y i))
                     (fin (vsum y - nth i y 0)).
Proof.
  intros H Hn.
  destruct (init_calc_cases y t P star w H Hn) as [o [Ho [HG _]]].
  exists o. split; [exact Ho|]. unfold G_Local.statistic. rewrite HG.
  assert (Hlag : forall w', length (map (lag_at w' y) (seq 0 (n w))) = n w)
    by (intros; now rewrite length_map, length_seq).
  assert (Hyl : forall w', length (vadd (map (lag_at w' y) (seq 0 (n w))) y) = n w)
    by (intros; rewrite LFacts.vadd_length, Hlag; lia).
  destruct star.
  - split.
    + rewrite length_map. destruct t.
      * unfold fins. now rewrite length_map, Hyl.
      * unfold fins.
        rewrite LFacts.fmap2_length, !length_map, Hyl, cardinalities_length. lia.
    + intros i Hi.
      assert (Ey : nth i (fins (vadd (map (lag_at (set_transform B w) y)
                                          (seq 0 (n w))) y)) None
                   = fin (lag_at (set_transform B w) y i + nth i y 0)).
      { rewrite nth_fins by (rewrite Hyl; exact Hi).
        rewrite nth_vadd by (rewrite ?Hlag; lia).
        now rewrite nth_map_seq by exact Hi. }
      destruct t.
      * rewrite (@LFacts.nth_map_in float float _ _ i None None)
          by (unfold fins; rewrite length_map, Hyl; exact Hi).
        now rewrite Ey.
      * rewrite (@LFacts.nth_map_in float float _ _ i None None)
          by (unfold fins;
              rewrite LFacts.fmap2_length, !length_map, Hyl, cardinalities_length; lia).
        rewrite nth_fmap2
          by (unfold fins; rewrite ?length_map, ?Hyl, ?cardinalities_length; lia).
        rewrite Ey.
        now rewrite (@LFacts.nth_map_in nat float _ _ i 0%nat None)
          by (rewrite cardinalities_length; exact Hi).
  - split.
    + unfold fins. rewrite LFacts.fmap2_length, !length_map, length_seq. lia.
    + intros i Hi.
      rewrite nth_fmap2 by (unfold fins; rewrite ?length_map, ?length_seq; lia).
      rewrite !nth_fins by (rewrite ?length_map, ?length_seq; lia).
      rewrite nth_map_seq by exact Hi.
      now rewrite (@LFacts.nth_map_in Qc Qc _ _ i 0 0) by lia.
Qed.

(** X6: the analytic expectation: one scalar 1/N under the row-standardized
    transform, an array with (cardinality_i + star)/N at location i under the
    binary one, where N = n - 1 without [star] and N = n with it. *)
Theorem local_expected_value y t P (star : bool) w :
  length y = n w -> (2 <= n w)%nat ->
  let N := (Z.of_nat (length y) - if star then 0 else 1)%Z in
  exists o, snd (init y t P star w) = Ok o
    /\ G_Local.EGs (G_Local.stat o)
       = match t with
         | R => Scalar (Some (1 / Z2Qc N))
         | B => Vec (map (fun k => Some ((N2Qc k + b2q star) / Z2Qc N))
                         (cardinalities w))
         end.
Proof.
  intros H Hn N.
  destruct (init_calc_cases y t P star w H Hn) as [o [Ho [_ [HE _]]]].
  exists o. split; [exact Ho|]. rewrite HE. cbv zeta. fold N.
  destruct t; [|reflexivity].
  f_equal. apply map_ext. intros k. unfold finZ. apply fdiv_fin.
  apply Z2Qc_neq0. subst N. destruct star; lia.
Qed.

(** X7: with [star], the statistic under the row-standardized transform is the
    one under the binary transform divided by cardinality_i + 1. *)
Theorem local_star_row_standardized_vs_binary y P w :
  length y = n w -> (2 <= n w)%nat ->
  exists oR oB,
    snd (init y R P true w) = Ok oR
    /\ snd (init y B P true w) = Ok oB
    /\ forall i, (i < n w)%nat ->
         nth i (G_Local.statistic oR) None
         = fdiv (nth i (G_Local.statistic oB) None)
                (fin (N2Qc (nth i (cardinalities w) 0%nat) + 1)).
Proof.
  intros H Hn.
  destruct (local_observed_statistic y R P true w H Hn) as [oR [HoR [_ HR]]].
  destruct (local_observed_statistic y B P true w H Hn) as [oB [HoB [_ HB]]].
  exists oR, oB. split; [exact HoR|]. split; [exact HoB|].
  intros i Hi. rewrite (HR i Hi), (HB i Hi).
  apply fdiv_swap. apply N2Qc_succ_neq0.
Qed.



(** *** The permutation inference *)

Lemma count_true_const {A} (b : bool) (l : list A) :
  count_true (map (fun _ => b) l) = if b then Z.of_nat (length l) else 0%Z.
Proof.
  unfold count_true. destruct b.
  - rewrite LFacts.filter_all, length_map; [reflexivity|].
    intros x Hx. apply in_map_iff in Hx. now destruct Hx as [_ [<- _]].
  - induction l as [|a l IH]; simpl; auto.
Qed.

Lemma col_length {A} (d : A) m j : length (col d m j) = length m.
Proof. unfold col. apply length_map. Qed.

Lemma sum_axis0_bounds k m :
  Forall (fun c => (0 <= c <= Z.of_nat (length m))%Z) (sum_axis0 k m).
Proof.
  unfold sum_axis0. apply Forall_forall. intros c Hc.
  apply in_map_iff in Hc. destruct Hc as [j [<- _]].
  pose proof (count_true_bounds (col false m j)) as Hb.
  now rewrite col_length in Hb.
Qed.

(** How [__init__] derives the recorded counts and the p-values. *)
Lemma simulate_structure y w t star P c s :
  simulate (length y) y w t star P c = Ok s ->
  G_Local.sim s = transpose None P (G_Local.rGs s)
  /\ G_Local.larger s
     = map (fun l => Z.min l (Z.of_nat P - l))
           (sum_axis0 (length y) (G_Local.above (G_Local.sim s) (G_Local.Gs c)))
  /\ G_Local.p_sim s
     = map (fun l => Some ((Z2Qc l + 1) / (N2Qc P + 1))) (G_Local.larger s)
  /\ G_Local.z_sim s
     = map (fun g => fdiv (fsub g (G_Local.EG_sim s)) (G_Local.seG_sim s)) (G_Local.Gs c)
  /\ G_Local.p_z_sim s = map (G_Local.norm_tail norm_cdf) (G_Local.z_sim s).
Proof.
  unfold G_Local.simulate.
  destruct (G_Local.crand _ _ _ _ _ _ _ _ _) as [rGs|e]; [|discriminate].
  cbn [res_bind]. intros [= <-].
  cbn [G_Local.rGs G_Local.sim G_Local.larger G_Local.p_sim G_Local.z_sim
       G_Local.p_z_sim G_Local.EG_sim G_Local.seG_sim].
  split; [reflexivity|]. split.
  - apply map_ext. intros l. apply tail_rule_min.
  - split; [|split; reflexivity].
    apply map_ext. intros l. apply fdiv_fin, N2Qc_succ_neq0.
Qed.

(** A run with permutations, for a vector of the graph's length and n >= 2. *)
Lemma init_sim_fields y t P star w :
  length y = n w -> (2 <= n w)%nat -> P <> 0%nat ->
  exists o s,
    snd (init y t P star w) = Ok o
    /\ G_Local.simulation o = Some s
    /\ simulate (length y) y w t star P (G_Local.stat o) = Ok s
    /\ length (G_Local.Gs (G_Local.stat o)) = n w
    /\ G_Local.rGs s
       = map (fun i =>
                map (fun row =>
                       Spec.sim_value y t star (nth i (cardinalities w) 0%nat)
                         (G_Local.crand_idsi shuffle w i) row i)
                    (G_Local.crand_rids permutation (length y) w P))
             (seq 0 (n w))
    /\ G_Local.p_sim s
       = map (fun i =>
                Some (Spec.p_value
                        (count_true
                           (map (fun v => fge v (nth i (G_Local.Gs (G_Local.stat o)) None))
                                (nth i (G_Local.rGs s) []))) P))
             (seq 0 (n w)).
Proof.
  intros H Hn HP.
  destruct (init_fields y t P star w H Hn) as [o [Ho [Hc [_ [_ [_ [_ Hs]]]]]]].
  destruct (Hs HP) as [s [Hsim Es]].
  destruct (@LFacts.local_calc_ok sqrt y t star (transform w) (set_transform t w) H Hn)
    as [c [Ec [Hys HG]]].
  rewrite LFacts.set_transform_restore, Hc in Ec. injection Ec as <-.
  destruct (@LFacts.local_simulate_ok sqrt norm_cdf permutation shuffle
              permutation_perm shuffle_perm y w t star P (G_Local.stat o) H Hys HG)
    as [s' [Es' [Hr [_ [Hps _]]]]].
  rewrite Es in Es'. injection Es' as <-.
  rewrite (@LFacts.crand_ok permutation shuffle permutation_perm shuffle_perm
             y w t star P H) in Hr.
  injection Hr as Hr.
  exists o, s. split; [now rewrite Ho|]. split; [exact Hsim|]. split; [exact Es|].
  split; [exact HG|]. split; [now symmetry|exact Hps].
Qed.

(** X12: a location without neighbours gets the smallest empirical p-value,
    1/(P + 1), whatever the data, [star] and the transform are: all its
    simulated values are equal, so the count of those >= the observed value is
    0 or P, and the fold takes it to 0. *)
Theorem island_p_sim_is_minimal y t P star w i :
  length y = n w -> (2 <= n w)%nat -> P <> 0%nat ->
  (i < n w)%nat -> nth i (cardinalities w) 0%nat = 0%nat ->
  exists o s,
    snd (init y t P star w) = Ok o
    /\ G_Local.simulation o = Some s
    /\ nth i (G_Local.p_sim s) None = Some (1 / (N2Qc P + 1)).
Proof.
  intros H Hn HP Hi Hcard.
  destruct (@init_sim_fields y t P star w H Hn HP)
    as [o [s [Ho [Hsim [_ [_ [Hr Hps]]]]]]].
  exists o, s. split; [exact Ho|]. split; [exact Hsim|].
  rewrite Hps, nth_map_seq by exact Hi.
  rewrite Hr, nth_map_seq by exact Hi. rewrite Hcard.
  set (g := nth i (G_Local.Gs (G_Local.stat o)) None).
  set (c0 := Spec.sim_value y t star 0 (G_Local.crand_idsi shuffle w i) [] i).
  rewrite (map_ext _ (fun _ : list nat => c0)) by reflexivity.
  rewrite map_map, count_true_const, LFacts.rids_length.
  f_equal. unfold Spec.p_value.
  replace (Z.min (if fge c0 g then Z.of_nat P else 0%Z)
                 (Z.of_nat P - (if fge c0 g then Z.of_nat P else 0%Z))) with 0%Z
    by (destruct (fge c0 g); lia).
  rewrite Z2Qc_0. now rewrite Qcplus_0_l.
Qed.

(** X13: every array of the result has one entry per location; the matrix of
    simulated values has one row per permutation and one column per
    location. *)
Theorem local_result_shapes y t P star w :
  length y = n w -> (2 <= n w)%nat -> P <> 0%nat ->
  exists o s,
    snd (init y t P star w) = Ok o
    /\ G_Local.simulation o = Some s
    /\ length (G_Local.Gs (G_Local.stat o)) = n w
    /\ length (G_Local.Zs (G_Local.stat o)) = n w
    /\ length (G_Local.p_norm o) = n w
    /\ length (G_Local.sim s) = P
    /\ (forall r, (r < P)%nat -> length (nth r (G_Local.sim s) []) = n w)
    /\ length (G_Local.larger s) = n w
    /\ length (G_Local.p_sim s) = n w
    /\ length (G_Local.z_sim s) = n w
    /\ length (G_Local.p_z_sim s) = n w.
Proof.
  intros H Hn HP.
  destruct (@init_sim_fields y t P star w H Hn HP)
    as [o [s [Ho [Hsim [Es [HG [Hr _]]]]]]].
  destruct (init_calc_cases y t P star w H Hn) as [o' [Ho' [_ [_ [HZ Hpn]]]]].
  rewrite Ho in Ho'. injection Ho' as <-.
  destruct (@simulate_structure _ _ _ _ _ _ _ Es) as [Hm [Hl [Hp [Hz Hpz]]]].
  assert (Hrows : length (G_Local.rGs s) = n w)
    by (now rewrite Hr, length_map, length_seq).
  assert (Hlar : length (G_Local.larger s) = n w).
  { rewrite Hl, length_map. unfold sum_axis0. now rewrite length_map, length_seq. }
  exists o, s. split; [exact Ho|]. split; [exact Hsim|].
  split; [exact HG|]. split; [exact HZ|]. split; [exact Hpn|].
  split; [rewrite Hm; unfold transpose; now rewrite length_map, length_seq|].
  split.
  { intros r Hr'. rewrite Hm. unfold transpose.
    rewrite nth_map_seq by exact Hr'. now rewrite col_length. }
  split; [exact Hlar|].
  split; [now rewrite Hp, length_map|].
  split; [now rewrite Hz, length_map|].
  now rewrite Hpz, Hz, !length_map.
Qed.

End Draws.

End Local.
End LExtra.

(** ** Further properties shared by the two engines *)

Module EnginesExtra.
Import Num Float Weights St NumFacts VecFacts ResFacts TailFacts.
Local Open Scope Qc_scope.

Section Both.
Variable sqrt : Qc -> float.
Variable norm_cdf : Qc -> Qc.
Variables w_s1 w_s2 : W -> Qc.

(** X1: with permutations = 0 neither engine draws random numbers: the outcome
    is the same for every generator, and a result that is returned has no
    simulation fields. *)
Theorem no_permutations_no_draws
    (py py' : nat -> list Qc -> list Qc)
    (p p' s s' : nat -> list nat -> list nat) y t star w :
  G.init sqrt norm_cdf w_s1 w_s2 py y 0 w = G.init sqrt norm_cdf w_s1 w_s2 py' y 0 w
  /\ G_Local.init sqrt norm_cdf p s y t 0 star w
     = G_Local.init sqrt norm_cdf p' s' y t 0 star w
  /\ (forall o, snd (G.init sqrt norm_cdf w_s1 w_s2 py y 0 w) = Ok o ->
        G.simulation o = None)
  /\ (forall o, snd (G_Local.init sqrt norm_cdf p s y t 0 star w) = Ok o ->
        G_Local.simulation o = None).
Proof.
  split; [unfold G.init; reflexivity|].
  split; [unfold G_Local.init; reflexivity|]. split.
  - unfold G.init, bind, put_transform, get, lift, ret.
    destruct (G.calc _ _ _); cbn [snd]; [|discriminate].
    intros o E.
    set (f := fun r : res G.obj =>
                match r with
                | Ok a => G.simulation a = None
                | Raise _ => True
                end).
    change (f (Ok o)). rewrite <- E. reflexivity.
  - unfold G_Local.init, bind, put_transform, get, lift, ret.
    destruct (G_Local.calc _ _ _ _ _ _ _) as [w1 [c|e]]; cbn [snd]; [|discriminate].
    intros o E.
    set (f := fun r : res G_Local.obj =>
                match r with
                | Ok a => G_Local.simulation a = None
                | Raise _ => True
                end).
    change (f (Ok o)). rewrite <- E. reflexivity.
Qed.

Variable permutation_y : nat -> list Qc -> list Qc.
Variable permutation : nat -> list nat -> list nat.
Variable shuffle : nat -> list nat -> list nat.

Local Abbreviation computeGlobalG := (G.init sqrt norm_cdf w_s1 w_s2 permutation_y).
Local Abbreviation computeLocalG := (G_Local.init sqrt norm_cdf permutation shuffle).

(** X4: the tail count that is recorded is the smaller of the two tails: at most
    P/2, in the global engine and at every location in the local engine; the
    empirical p-value is (larger + 1)/(P + 1) for that recorded count, so
    2 p_sim <= 1 + 1/(P + 1). *)
Theorem recorded_count_is_folded y w t P star :
  length y = n w -> (2 <= n w)%nat -> P <> 0%nat ->
  (forall k, length (permutation_y k y) = length y) ->
  (forall k l, Permutation (permutation k l) l) ->
  (forall k l, Permutation (shuffle k l) l) ->
  (exists o s,
     snd (computeGlobalG y P w) = Ok o
     /\ G.simulation o = Some s
     /\ (0 <= 2 * G.larger s <= Z.of_nat P)%Z
     /\ G.p_sim s = Some ((Z2Qc (G.larger s) + 1) / (N2Qc P + 1))
     /\ Z2Qc 2 * ((Z2Qc (G.larger s) + 1) / (N2Qc P + 1)) <= 1 + 1 / (N2Qc P + 1))
  /\ (exists o s,
        snd (computeLocalG y t P star w) = Ok o
        /\ G_Local.simulation o = Some s
        /\ length (G_Local.larger s) = n w
        /\ forall i, (i < n w)%nat ->
             let l := nth i (G_Local.larger s) 0%Z in
             (0 <= 2 * l <= Z.of_nat P)%Z
             /\ nth i (G_Local.p_sim s) None = Some ((Z2Qc l + 1) / (N2Qc P + 1))
             /\ Z2Qc 2 * ((Z2Qc l + 1) / (N2Qc P + 1)) <= 1 + 1 / (N2Qc P + 1)).
Proof.
  intros H Hn HP Hy Hp Hs. split.
  - destruct (@GExtra.init_analytic sqrt norm_cdf w_s1 w_s2 permutation_y y P w H Hy)
      as [o [Ho [_ [_ [_ [_ [_ [_ [_ [_ Hsim]]]]]]]]]].
    destruct (Hsim HP) as [s [Es Hrun]].
    destruct (@GExtra.simulate_larger sqrt norm_cdf permutation_y _ _ _ _ _ _ Hrun)
      as [Hl [Hlar Hps]].
    pose proof (count_true_bounds (map (fun v => fge v (G.G o)) (G.sim s))) as Hb.
    rewrite length_map, Hl in Hb.
    assert (Hf : (0 <= 2 * G.larger s <= Z.of_nat P)%Z) by (rewrite Hlar; lia).
    exists o, s. split; [exact Ho|]. split; [exact Es|]. split; [exact Hf|].
    split; [exact Hps|]. now apply GExtra.folded_p_bound.
  - destruct (@LExtra.init_sim_fields sqrt norm_cdf permutation shuffle Hp Hs
                y t P star w H Hn HP)
      as [o [s [Ho [Hsim [Es [HG [Hr _]]]]]]].
    destruct (@LExtra.simulate_structure sqrt norm_cdf permutation shuffle
                _ _ _ _ _ _ _ Es) as [Hm [Hl [Hps _]]].
    assert (Hlen : length (G_Local.larger s) = n w).
    { rewrite Hl, length_map. unfold sum_axis0. now rewrite length_map, length_seq. }
    exists o, s. split; [exact Ho|]. split; [exact Hsim|]. split; [exact Hlen|].
    intros i Hi. cbv zeta.
    assert (Hf : (0 <= 2 * nth i (G_Local.larger s) 0 <= Z.of_nat P)%Z).
    { assert (Hin : In (nth i (G_Local.larger s) 0%Z) (G_Local.larger s))
        by (apply nth_In; lia).
      rewrite Hl in Hin at 2. apply in_map_iff in Hin.
      destruct Hin as [c [Ec Hc]].
      pose proof (LExtra.sum_axis0_bounds (length y)
                    (G_Local.above (G_Local.sim s) (G_Local.Gs (G_Local.stat o)))) as Hb.
      rewrite Forall_forall in Hb. specialize (Hb c Hc).
      assert (Hrows : length (G_Local.above (G_Local.sim s)
                                (G_Local.Gs (G_Local.stat o))) = P).
      { unfold G_Local.above. rewrite length_map, Hm. unfold transpose.
        now rewrite length_map, length_seq. }
      rewrite Hrows in Hb. rewrite <- Ec. lia. }
    split; [exact Hf|]. split.
    + rewrite Hps.
      now rewrite (@LFacts.nth_map_in Z float _ _ i 0%Z None) by lia.
    + now apply GExtra.folded_p_bound.
Qed.

End Both.
End EnginesExtra.

(** ** The further properties on concrete inputs *)

Module ExtraRuns.
Import Num Float Weights St Sample.
Local Open Scope Qc_scope.

Lemma rev_y_perm : forall y k, Permutation (rev_y k y) y.
Proof.
  intros y k. unfold rev_y. apply Permutation_sym, Permutation_rev.
Defined.

(** On the graph with an island, location 3 gets p_sim = 1/3 with two
    permutations. *)
Example island_run :
  match snd (run_G_Local y4 R 2 false (w_island B)) with
  | Ok o => option_map (fun s => map frac (G_Local.p_sim s)) (G_Local.simulation o)
  | Raise _ => None
  end = Some [Some (1 # 3)%Q; Some (1 # 3)%Q; Some (1 # 3)%Q; Some (1 # 3)%Q].
Proof. vm_compute. reflexivity. Qed.

Lemma global_analytic_scale_witness :
  exists o o',
    snd (run_G y4 2 (w4 R)) = Ok o
    /\ snd (run_G (vscale (q 3 1) y4) 2 (w4 R)) = Ok o'
    /\ G.G o' = G.G o /\ G.mom o' = G.mom o.
Proof.
  destruct (@GExtra.global_analytic_scale_invariant sqrt0 cdf0 s1_0 s2_0 rev_y
              y4 2%nat (w4 R) (q 3 1)
              ltac:(intros E; discriminate E) eq_refl
              (Runs.rev_y_length y4) (fun k => eq_refl))
    as [o [o' [Ho [Ho' [HG [Hm _]]]]]].
  exists o, o'. repeat split; assumption.
Defined.

Lemma global_sim_witness :
  exists o s,
    snd (run_G y4 2 (w4 R)) = Ok o
    /\ G.simulation o = Some s
    /\ nth 0 (G.sim s) None = Spec.G_obs (set_transform B (w4 R)) (rev y4).
Proof.
  destruct (@GExtra.global_sim_is_G_of_permuted sqrt0 cdf0 s1_0 s2_0 rev_y
              y4 2%nat (w4 R) eq_refl (rev_y_perm y4)
              ltac:(intros E; discriminate E))
    as [o [s [Ho [Hs [_ Hv]]]]].
  exists o, s. split; [exact Ho|]. split; [exact Hs|].
  apply (Hv 0%nat). lia.
Defined.

Lemma recorded_count_witness :
  exists o s,
    snd (run_G y4 3 (w4 R)) = Ok o
    /\ G.simulation o = Some s
    /\ (0 <= 2 * G.larger s <= 3)%Z.
Proof.
  destruct (@EnginesExtra.recorded_count_is_folded sqrt0 cdf0 s1_0 s2_0
              rev_y rev_ix rev_ix y4 (w4 R) R 3%nat false eq_refl
              ltac:(vm_compute; lia) ltac:(intros E; discriminate E)
              (Runs.rev_y_length y4) Runs.rev_ix_perm Runs.rev_ix_perm)
    as [[o [s [Ho [Hs [Hf _]]]]] _].
  exists o, s. repeat split; try assumption; apply Hf.
Defined.

Lemma local_observed_witness :
  exists o, snd (run_G_Local y4 R 0 false (w4 B)) = Ok o
    /\ nth 0 (G_Local.statistic o) None
       = fdiv (fin (lag_at (set_transform R (w4 B)) y4 0))
              (fin (vsum y4 - nth 0 y4 (q 0 1))).
Proof.
  destruct (@LExtra.local_observed_statistic sqrt0 cdf0 rev_ix rev_ix
              Runs.rev_ix_perm Runs.rev_ix_perm y4 R 0%nat false (w4 B) eq_refl
              ltac:(vm_compute; lia))
    as [o [Ho [_ Hv]]].
  exists o. split; [exact Ho|]. apply (Hv 0%nat). vm_compute. lia.
Defined.

Lemma local_expected_witness :
  exists o, snd (run_G_Local y4 B 0 true (w4 R)) = Ok o
    /\ G_Local.EGs (G_Local.stat o)
       = Vec (map (fun k => Some ((N2Qc k + b2q true) / Z2Qc (Z.of_nat (length y4) - 0)))
                  (cardinalities (w4 R))).
Proof.
  destruct (@LExtra.local_expected_value sqrt0 cdf0 rev_ix rev_ix
              Runs.rev_ix_perm Runs.rev_ix_perm y4 B 0%nat true (w4 R) eq_refl
              ltac:(vm_compute; lia))
    as [o [Ho HE]].
  exists o. split; [exact Ho|exact HE].
Defined.

Lemma local_star_transform_witness :
  exists oR oB,
    snd (run_G_Local y4 R 0 true (w4 B)) = Ok oR
    /\ snd (run_G_Local y4 B 0 true (w4 B)) = Ok oB
    /\ nth 1 (G_Local.statistic oR) None
       = fdiv (nth 1 (G_Local.statistic oB) None)
              (fin (N2Qc (nth 1 (cardinalities (w4 B)) 0%nat) + 1)).
Proof.
  destruct (@LExtra.local_star_row_standardized_vs_binary sqrt0 cdf0 rev_ix rev_ix
              Runs.rev_ix_perm Runs.rev_ix_perm y4 0%nat (w4 B) eq_refl
              ltac:(vm_compute; lia))
    as [oR [oB [HR [HB Hv]]]].
  exists oR, oB. split; [exact HR|]. split; [exact HB|].
  apply (Hv 1%nat). vm_compute. lia.
Defined.


Lemma local_restore_witness :
  fst (run_G_Local y4 R 2 true (w4 B)) = w4 B.
Proof.
  destruct (LFacts.local_init_ok sqrt0 cdf0 rev_ix rev_ix Runs.rev_ix_perm Runs.rev_ix_perm
              y4 R 2 true (w4 B) eq_refl ltac:(vm_compute; lia)) as [o [Ho _]].
  apply (@LExtra.local_success_restores_graph sqrt0 cdf0 rev_ix rev_ix
           y4 R 2%nat true (w4 B) o).
  rewrite Ho. reflexivity.
Defined.

Lemma local_failure_witness :
  snd (run_G_Local y1 R 2 false (w1 B)) = Raise ZeroDivisionError
  /\ fst (run_G_Local y1 R 2 false (w1 B)) = set_transform R (w1 B).
Proof.
  apply (@LExtra.local_failure_leaves_graph_modified sqrt0 cdf0 rev_ix rev_ix
           y1 R 2%nat false (w1 B) ZeroDivisionError).
  reflexivity.
Defined.

Lemma local_single_location_witness :
  snd (run_G_Local y1 R 0 false (w1 B)) = Raise ZeroDivisionError
  /\ fst (run_G_Local y1 R 0 false (w1 B)) = set_transform R (w1 B).
Proof.
  exact (@LExtra.local_single_location_raises sqrt0 cdf0 rev_ix rev_ix
           y1 R 0%nat (w1 B) eq_refl eq_refl).
Defined.

Lemma island_witness :
  exists o s,
    snd (run_G_Local y4 R 2 false (w_island B)) = Ok o
    /\ G_Local.simulation o = Some s
    /\ nth 3 (G_Local.p_sim s) None = Some (1 / (N2Qc 2 + 1)).
Proof.
  exact (@LExtra.island_p_sim_is_minimal sqrt0 cdf0 rev_ix rev_ix
           Runs.rev_ix_perm Runs.rev_ix_perm y4 R 2%nat false (w_island B) 3%nat
           eq_refl ltac:(vm_compute; lia) ltac:(intros E; discriminate E)
           ltac:(vm_compute; lia) eq_refl).
Defined.

Lemma local_shapes_witness :
  exists o s,
    snd (run_G_Local y4 B 3 true (w4 R)) = Ok o
    /\ G_Local.simulation o = Some s
    /\ length (G_Local.sim s) = 3%nat
    /\ length (G_Local.p_sim s) = n (w4 R).
Proof.
  destruct (@LExtra.local_result_shapes sqrt0 cdf0 rev_ix rev_ix
              Runs.rev_ix_perm Runs.rev_ix_perm y4 B 3%nat true (w4 R) eq_refl
              ltac:(vm_compute; lia) ltac:(intros E; discriminate E))
    as [o [s [Ho [Hs [_ [_ [_ [Hm [_ [_ [Hp _]]]]]]]]]]].
  exists o, s. repeat split; assumption.
Defined.

End ExtraRuns.
